(** * Motion-typography engine: timeline compiler, interpolator, validator

    A shallow embedding of the Python engine (engine/dsl/validator.py,
    engine/dsl/easing.py, engine/dsl/keyframes.py, engine/core/types.py and
    engine/pipeline.py) together with the properties its design document
    states about it.

    Conventions of the embedding.
    - A Python [float] (and an [int] used as a time or a coordinate) is an
      exact rational of [Q]; comparisons are the rational ones, so rounding
      of binary floating point is not part of the model.
    - A [dict] keyed by strings is a [gmap string _]; the percent-keyed
      keyframe table of an animation, whose insertion order decides the
      order of keyframes with equal times, is an association list.
    - A function that can raise returns a [result]; the exception classes
      are the constructors of [exn].
    - In-place mutation of a dataclass is a function returning the updated
      record.  Objects are not shared between segments, as
      [Transcript.from_dict] builds them. *)

From Stdlib Require Import QArith Qminmax Qround Qabs Lqa Lia ZArith String Ascii List Bool Sorted.
From stdpp Require Import gmap strings list fin_maps option.

Set Warnings "-register-all".
Import ListNotations.

Local Open Scope string_scope.
Local Open Scope Q_scope.

(** ** Exceptions and results *)

Inductive exn : Type :=
| ValidationError (msg : string)
| ValueError (msg : string)
| IndexError (msg : string)
| EncodingError (msg : string)
| RuntimeError (msg : string).

Inductive result (A : Type) : Type :=
| Ok (a : A)
| Raise (e : exn).
Arguments Ok {A} a.
Arguments Raise {A} e.

(** Sequencing: the first exception raised propagates.  The instances give
    the notation [x ← r; k] for it. *)
#[export] Instance result_bind : MBind result :=
  fun A B (k : A -> result B) (r : result A) =>
    match r with
    | Ok a => k a
    | Raise e => Raise e
    end.
#[export] Instance result_ret : MRet result := fun A a => Ok a.

Definition is_ok {A : Type} (r : result A) : bool :=
  match r with Ok _ => true | Raise _ => false end.

(** [for x in l: acc = body(acc, x)] where the body may raise. *)
Fixpoint foldM {A S : Type} (body : S -> A -> result S) (l : list A) (acc : S)
  : result S :=
  match l with
  | [] => Ok acc
  | x :: l' => acc' ← body acc x; foldM body l' acc'
  end.

(** [[f(x) for x in l]] where [f] may raise. *)
Fixpoint mapM {A B : Type} (f : A -> result B) (l : list A) : result (list B) :=
  match l with
  | [] => Ok []
  | x :: l' => y ← f x; ys ← mapM f l'; Ok (y :: ys)
  end.

(** ** Comparisons of Python floats *)

Definition Qltb (x y : Q) : bool :=
  match Qcompare x y with Lt => true | _ => false end.
Definition Qleb (x y : Q) : bool := Qle_bool x y.
Definition Qeqb (x y : Q) : bool := Qeq_bool x y.

Declare Scope pyfloat_scope.
Delimit Scope pyfloat_scope with py.
Infix "<?" := Qltb (at level 70, no associativity) : pyfloat_scope.
Infix "<=?" := Qleb (at level 70, no associativity) : pyfloat_scope.
Infix "=?" := Qeqb (at level 70, no associativity) : pyfloat_scope.
Local Open Scope pyfloat_scope.

(** [min(g)] and [max(g)] over a generator: the first element starts the
    scan and a later element replaces the running value only when it is
    strictly smaller (respectively larger). *)
Fixpoint py_min_from (acc : Q) (l : list Q) : Q :=
  match l with
  | [] => acc
  | x :: l' => py_min_from (if x <? acc then x else acc) l'
  end.

Fixpoint py_max_from (acc : Q) (l : list Q) : Q :=
  match l with
  | [] => acc
  | x :: l' => py_max_from (if acc <? x then x else acc) l'
  end.

Definition py_min (l : list Q) : result Q :=
  match l with
  | [] => Raise (ValueError "min() arg is an empty sequence")
  | x :: l' => Ok (py_min_from x l')
  end.

Definition py_max (l : list Q) : result Q :=
  match l with
  | [] => Raise (ValueError "max() arg is an empty sequence")
  | x :: l' => Ok (py_max_from x l')
  end.

(** ** engine/core/types.py: transcript data *)

Module Word.
Record t : Type := mk {
  text : string;
  start : Q;
  end_ : Q;
  id : option Z
}.
Definition set_end (w : t) (e : Q) : t :=
  {| text := text w; start := start w; end_ := e; id := id w |}.
Definition duration (w : t) : Q := end_ w - start w.
End Word.

Module Segment.
Record t : Type := mk {
  text : string;
  start : Q;
  end_ : Q;
  words : list Word.t;
  id : option Z;
  speaker_id : option string
}.
Definition set_start (s : t) (x : Q) : t :=
  {| text := text s; start := x; end_ := end_ s; words := words s;
     id := id s; speaker_id := speaker_id s |}.
Definition set_end (s : t) (x : Q) : t :=
  {| text := text s; start := start s; end_ := x; words := words s;
     id := id s; speaker_id := speaker_id s |}.
Definition set_words (s : t) (ws : list Word.t) : t :=
  {| text := text s; start := start s; end_ := end_ s; words := ws;
     id := id s; speaker_id := speaker_id s |}.
Definition duration (s : t) : Q := end_ s - start s.
End Segment.

Module Transcript.
Record t : Type := mk {
  segments : list Segment.t;
  duration : Q;
  language : option string;
  text : option string
}.
Definition set_segments (tr : t) (segs : list Segment.t) : t :=
  {| segments := segs; duration := duration tr; language := language tr;
     text := text tr |}.
End Transcript.

(** ** engine/dsl/validator.py: [validate_transcript] *)

Module Validator.

(** Lines 18-20: a negative segment start becomes 0. *)
Definition clamp_start (s : Segment.t) : Segment.t :=
  if Segment.start s <? 0 then Segment.set_start s 0 else s.

(** Lines 27-34: a segment with [end <= start] takes its bounds from its
    words, and gets a tenth of a second if that is still degenerate.  The
    segment has at least one word here, so [min] and [max] do not raise;
    the empty case keeps the segment, it is never reached. *)
Definition fix_range (s : Segment.t) : Segment.t :=
  if Segment.end_ s <=? Segment.start s then
    match py_min (map Word.start (Segment.words s)),
          py_max (map Word.end_ (Segment.words s)) with
    | Ok lo, Ok hi =>
        let s1 := Segment.set_end (Segment.set_start s lo) hi in
        if Segment.end_ s1 <=? Segment.start s1
        then Segment.set_end s1 (Segment.start s1 + 0.1)
        else s1
    | _, _ => s
    end
  else s.

(** Lines 39-44: repair of one word's range against the current segment. *)
Definition fix_word_range (seg : Segment.t) (w : Word.t) : Word.t :=
  if Word.end_ w <? Word.start w then
    Word.set_end w (Word.start w + 0.01)
  else if Word.end_ w =? Word.start w then
    Word.set_end w (Qmin (Word.start w + 0.01) (Segment.end_ seg))
  else w.

(** Lines 47-50: the segment grows to include the repaired word. *)
Definition expand_to (seg : Segment.t) (w : Word.t) : Segment.t :=
  let seg1 :=
    if Word.start w <? Segment.start seg
    then Segment.set_start seg (Word.start w) else seg in
  if Segment.end_ seg1 <? Word.end_ w
  then Segment.set_end seg1 (Word.end_ w) else seg1.

(** Lines 37-50: the loop over the words; it returns the segment as it is
    after the last word together with the repaired words, in order. *)
Fixpoint fix_words (seg : Segment.t) (ws : list Word.t)
  : Segment.t * list Word.t :=
  match ws with
  | [] => (seg, [])
  | w :: ws' =>
      let w1 := fix_word_range seg w in
      let seg1 := expand_to seg w1 in
      let '(seg2, ws2) := fix_words seg1 ws' in
      (seg2, w1 :: ws2)
  end.

(** The body of the loop over segments (lines 17-52): [None] is the
    [continue] of a segment without words. *)
Definition validate_segment (s : Segment.t) : option Segment.t :=
  let s0 := clamp_start s in
  match Segment.words s0 with
  | [] => None
  | _ :: _ =>
      let s1 := fix_range s0 in
      let '(s2, ws) := fix_words s1 (Segment.words s1) in
      Some (Segment.set_words s2 ws)
  end.

Definition validate_transcript (tr : Transcript.t) : result Transcript.t :=
  match Transcript.segments tr with
  | [] => Raise (ValidationError "Transcript must have at least one segment")
  | _ :: _ =>
      let valid_segments := omap validate_segment (Transcript.segments tr) in
      match valid_segments with
      | [] => Raise (ValidationError "No valid segments found in transcript")
      | _ :: _ => Ok (Transcript.set_segments tr valid_segments)
      end
  end.

End Validator.

(** ** Python builtins the engine calls

    [float(s)], [str.lower()] and the functions of the [math] module are not
    part of the repository; the embedding takes them as an interface.
    [py_float s] is [None] where [float(s)] raises [ValueError] or returns a
    value that is not finite (both make [Keyframe] construction raise
    [ValueError]).  [str_lower s] is [s.lower()], which follows the Unicode
    case tables; on a string of ASCII characters it changes the letters A-Z
    to a-z and nothing else, which is all the embedding assumes of it. *)

(** Lower case of an ASCII character. *)
Definition lower_ascii (c : ascii) : ascii :=
  let n := N_of_ascii c in
  if ((65 <=? n) && (n <=? 90))%N then ascii_of_N (n + 32) else c.

(** Lower case of a string of ASCII characters. *)
Fixpoint lower (s : string) : string :=
  match s with
  | EmptyString => EmptyString
  | String c s' => String (lower_ascii c) (lower s')
  end.

(** Every character of the string is an ASCII character. *)
Fixpoint is_ascii (s : string) : bool :=
  match s with
  | EmptyString => true
  | String c s' => (N_of_ascii c <? 128)%N && is_ascii s'
  end.

Class Python : Type := {
  py_float : string -> option Q;
  math_pi : Q;
  math_sin : Q -> Q;
  math_cos : Q -> Q;
  math_pow : Q -> Q -> Q;
  str_lower : string -> string;
  str_lower_ascii : forall s, is_ascii s = true -> str_lower s = lower s
}.

(** [int(x)] of a float: truncation toward zero. *)
Definition py_int (x : Q) : Z := Z.quot (Qnum x) (Zpos (Qden x)).

(** [s.rstrip(c)] for a single character [c]. *)
Fixpoint rstrip (c : ascii) (s : string) : string :=
  match s with
  | EmptyString => EmptyString
  | String a s' =>
      match rstrip c s' with
      | EmptyString => if Ascii.eqb a c then EmptyString else String a EmptyString
      | r => String a r
      end
  end.

(** ** Property values ([Any] in the type annotations)

    The values a property table can hold: [None], booleans, numbers,
    strings, lists and tuples, and nested dictionaries. *)

Inductive seq_kind : Type := PyList | PyTuple.

Inductive value : Type :=
| VNone
| VBool (b : bool)
| VNum (q : Q)
| VStr (s : string)
| VSeq (k : seq_kind) (items : list value)
| VDict (d : gmap string value).

(** [isinstance(v, (int, float))]: [bool] is a subclass of [int]. *)
Definition as_number (v : value) : option Q :=
  match v with
  | VNum q => Some q
  | VBool b => Some (if b then 1 else 0)
  | _ => None
  end.

Definition is_str (v : value) : bool :=
  match v with VStr _ => true | _ => false end.

Definition is_none (v : value) : bool :=
  match v with VNone => true | _ => false end.

(** ** engine/core/types.py: style data *)

Module Keyframe.
Record t : Type := mk {
  time : Q;
  properties : gmap string value
}.
(** The dataclass constructor with its [__post_init__] check. *)
Definition make (time : Q) (properties : gmap string value) : result t :=
  if negb ((0 <=? time) && (time <=? 1))
  then Raise (ValueError "Keyframe time must be between 0.0 and 1.0")
  else Ok (mk time properties).
End Keyframe.

(** [sorted(l, key=...)] is stable: an element goes before the first
    element of the sorted rest whose key is not smaller. *)
Fixpoint insert_by {A : Type} (key : A -> Q) (x : A) (l : list A) : list A :=
  match l with
  | [] => [x]
  | y :: l' => if key x <=? key y then x :: y :: l' else y :: insert_by key x l'
  end.

Fixpoint sorted_by {A : Type} (key : A -> Q) (l : list A) : list A :=
  match l with
  | [] => []
  | x :: l' => insert_by key x (sorted_by key l')
  end.

Module Animation.
Record t : Type := mk {
  selector : string;
  keyframes : list (string * gmap string value);
  duration : Q;
  easing : string;
  delay : Q;
  stagger : option Q
}.

Section WithPython.
Context `{Python}.

Definition keyframe_of_item (item : string * gmap string value)
  : result Keyframe.t :=
  match py_float (rstrip "%" (fst item)) with
  | None => Raise (ValueError "could not convert string to float")
  | Some p => Keyframe.make (p / 100) (snd item)
  end.

Definition get_keyframes (a : t) : result (list Keyframe.t) :=
  result_ ← mapM keyframe_of_item (keyframes a);
  Ok (sorted_by Keyframe.time result_).
End WithPython.
End Animation.

Module EffectConfig.
Record t : Type := mk {
  blur : option (gmap string value);
  glow : option (gmap string value);
  shadow : option (gmap string value);
  color_grade : option (gmap string value)
}.
End EffectConfig.

Module StyleConfig.
Record t : Type := mk {
  font_family : string;
  font_size : Z;
  resolution : list Z;
  fps : Z;
  background_color : Z * Z * Z * Z;
  animations : list Animation.t;
  effects : option EffectConfig.t;
  color : option string;
  letter_spacing : option Q;
  line_height : option Q;
  font_weight : value;
  text_align : option string;
  padding : option (Q * Q);
  border_radius : option Q;
  background_color_rgba : option string
}.
End StyleConfig.

(** ** engine/dsl/validator.py: [validate_styles] *)

Module StyleValidator.

Definition check_animation (anim : Animation.t) : result unit :=
  if Animation.duration anim <=? 0 then
    Raise (ValidationError "Animation duration must be positive")
  else match Animation.keyframes anim with
       | [] => Raise (ValidationError "Animation must have keyframes")
       | _ :: _ => Ok tt
       end.

Definition validate_styles (styles : StyleConfig.t) : result unit :=
  if (StyleConfig.fps styles <=? 0)%Z then
    Raise (ValidationError "FPS must be positive")
  else if (StyleConfig.font_size styles <=? 0)%Z then
    Raise (ValidationError "Font size must be positive")
  else if negb (length (StyleConfig.resolution styles) =? 2)%nat
          || existsb (fun r => (r <=? 0)%Z) (StyleConfig.resolution styles) then
    Raise (ValidationError "Resolution must be a tuple of two positive integers")
  else
    foldM (fun _ anim => check_animation anim) (StyleConfig.animations styles) tt.

End StyleValidator.

(** ** engine/dsl/easing.py *)

Module EasingFunction.

(** The static methods of the class, as the callables the registry holds. *)
Inductive t : Type :=
| linear
| ease_in_quad | ease_out_quad | ease_in_out_quad
| ease_in_cubic | ease_out_cubic | ease_in_out_cubic
| ease_in_quartic | ease_out_quartic | ease_in_out_quartic
| ease_in_sine | ease_out_sine | ease_in_out_sine
| ease_in_exponential | ease_out_exponential | ease_in_out_exponential
| ease_in_elastic | ease_out_elastic | ease_in_out_elastic
| ease_in_bounce | ease_out_bounce | ease_in_out_bounce
| ease_in_back | ease_out_back | ease_in_out_back.

#[export] Instance t_eq_dec : EqDecision t.
Proof. solve_decision. Defined.

Definition bounce_out (t : Q) : Q :=
  if t <? 1 / 2.75 then 7.5625 * t * t
  else if t <? 2 / 2.75 then
    let t := t - 1.5 / 2.75 in 7.5625 * t * t + 0.75
  else if t <? 2.5 / 2.75 then
    let t := t - 2.25 / 2.75 in 7.5625 * t * t + 0.9375
  else
    let t := t - 2.625 / 2.75 in 7.5625 * t * t + 0.984375.

Definition bounce_in (t : Q) : Q := 1 - bounce_out (1 - t).

Definition back_in (t : Q) : Q :=
  let c1 := 1.70158 in
  let c3 := c1 + 1 in
  c3 * t * t * t - c1 * t * t.

Section WithPython.
Context `{Python}.

Definition call (f : t) (t : Q) : Q :=
  match f with
  | linear => t
  | ease_in_quad => t * t
  | ease_out_quad => t * (2 - t)
  | ease_in_out_quad =>
      if t <? 0.5 then 2 * t * t else -1 + (4 - 2 * t) * t
  | ease_in_cubic => t * t * t
  | ease_out_cubic => (t - 1) * (t - 1) * (t - 1) + 1
  | ease_in_out_cubic =>
      if t <? 0.5 then 4 * t * t * t
      else (t - 1) * (2 * t - 2) * (2 * t - 2) + 1
  | ease_in_quartic => t * t * t * t
  | ease_out_quartic => 1 - (t - 1) * (t - 1) * (t - 1) * (t - 1)
  | ease_in_out_quartic =>
      if t <? 0.5 then 8 * t * t * t * t
      else 1 - 8 * (t - 1) * (t - 1) * (t - 1) * (t - 1)
  | ease_in_sine => 1 - math_cos (t * math_pi / 2)
  | ease_out_sine => math_sin (t * math_pi / 2)
  | ease_in_out_sine => - (math_cos (math_pi * t) - 1) / 2
  | ease_in_exponential =>
      if t =? 0 then 0 else math_pow 2 (10 * (t - 1))
  | ease_out_exponential =>
      if t =? 1 then 1 else 1 - math_pow 2 (-10 * t)
  | ease_in_out_exponential =>
      if t =? 0 then 0
      else if t =? 1 then 1
      else if t <? 0.5 then math_pow 2 (20 * t - 10) / 2
      else (2 - math_pow 2 (-20 * t + 10)) / 2
  | ease_in_elastic =>
      if t =? 0 then 0
      else if t =? 1 then 1
      else - math_pow 2 (10 * (t - 1)) * math_sin ((t - 1.1) * 5 * math_pi)
  | ease_out_elastic =>
      if t =? 0 then 0
      else if t =? 1 then 1
      else math_pow 2 (-10 * t) * math_sin ((t - 0.1) * 5 * math_pi) + 1
  | ease_in_out_elastic =>
      if t =? 0 then 0
      else if t =? 1 then 1
      else if t <? 0.5 then
        - (math_pow 2 (20 * t - 10)
           * math_sin ((20 * t - 11.125) * (2 * math_pi) / 4.5)) / 2
      else
        (math_pow 2 (-20 * t + 10)
         * math_sin ((20 * t - 11.125) * (2 * math_pi) / 4.5)) / 2 + 1
  | ease_in_bounce => bounce_in t
  | ease_out_bounce => bounce_out t
  | ease_in_out_bounce =>
      if t <? 0.5 then bounce_in (t * 2) / 2
      else bounce_out (t * 2 - 1) / 2 + 0.5
  | ease_in_back => back_in t
  | ease_out_back =>
      let c1 := 1.70158 in
      let c3 := c1 + 1 in
      1 + c3 * math_pow (t - 1) 3 + c1 * math_pow (t - 1) 2
  | ease_in_out_back =>
      let c1 := 1.70158 in
      let c2 := c1 * 1.525 in
      if t <? 0.5 then (t * t * ((c2 + 1) * 2 * t - c2)) / 2
      else ((t * 2 - 2) * (t * 2 - 2) * ((c2 + 1) * (t * 2 - 2) + c2) + 2) / 2
  end.
End WithPython.

End EasingFunction.

Module Easing.
Import EasingFunction.

(** [_EASING_MAP], in the order the dictionary literal lists its keys. *)
Definition _EASING_MAP : list (string * EasingFunction.t) :=
  [ ("linear", linear);
    ("easeInQuad", ease_in_quad);
    ("easeOutQuad", ease_out_quad);
    ("easeInOutQuad", ease_in_out_quad);
    ("easeInCubic", ease_in_cubic);
    ("easeOutCubic", ease_out_cubic);
    ("easeInOutCubic", ease_in_out_cubic);
    ("easeInQuartic", ease_in_quartic);
    ("easeOutQuartic", ease_out_quartic);
    ("easeInOutQuartic", ease_in_out_quartic);
    ("easeInSine", ease_in_sine);
    ("easeOutSine", ease_out_sine);
    ("easeInOutSine", ease_in_out_sine);
    ("easeInExponential", ease_in_exponential);
    ("easeOutExponential", ease_out_exponential);
    ("easeInOutExponential", ease_in_out_exponential);
    ("easeInElastic", ease_in_elastic);
    ("easeOutElastic", ease_out_elastic);
    ("easeInOutElastic", ease_in_out_elastic);
    ("easeInBounce", ease_in_bounce);
    ("easeOutBounce", ease_out_bounce);
    ("easeInOutBounce", ease_in_out_bounce);
    ("easeInBack", ease_in_back);
    ("easeOutBack", ease_out_back);
    ("easeInOutBack", ease_in_out_back);
    ("easeIn", ease_in_cubic);
    ("easeOut", ease_out_cubic);
    ("easeInOut", ease_in_out_cubic) ].

(** [name in d] and [d[name]]. *)
Fixpoint assoc {A : Type} (name : string) (d : list (string * A)) : option A :=
  match d with
  | [] => None
  | (key, v) :: d' => if String.eqb key name then Some v else assoc name d'
  end.

Section WithPython.
Context `{Python}.

(** The loop [for key, func in d.items(): if key.lower() == name_lower]. *)
Fixpoint scan_lower {A : Type} (name_lower : string) (d : list (string * A))
  : option A :=
  match d with
  | [] => None
  | (key, func) :: d' =>
      if String.eqb (str_lower key) name_lower then Some func
      else scan_lower name_lower d'
  end.

Definition lookup_in (d : list (string * EasingFunction.t)) (name : string)
  : EasingFunction.t :=
  let name_lower := str_lower name in
  match assoc name d with
  | Some func => func
  | None =>
      match scan_lower name_lower d with
      | Some func => func
      | None => linear
      end
  end.

Definition get_easing_function (name : string) : EasingFunction.t :=
  lookup_in _EASING_MAP name.
End WithPython.

End Easing.

(** ** engine/dsl/keyframes.py *)

Module KeyframeInterpolator.

Record t : Type := mk {
  keyframes : list Keyframe.t;
  easing_func : EasingFunction.t
}.

Definition _validate_keyframes (self : t) : result unit :=
  match keyframes self with
  | [] => Raise (ValueError "At least one keyframe is required")
  | first :: _ =>
      if negb (Keyframe.time first =? 0) then
        Raise (ValueError "First keyframe must be at time 0.0")
      else if negb (Keyframe.time (List.last (keyframes self) first) =? 1) then
        Raise (ValueError "Last keyframe must be at time 1.0")
      else Ok tt
  end.


(** [_interpolate_value]; the inner function is the generator over
    [zip(val1, val2)]. *)
Fixpoint _interpolate_value (val1 val2 : value) (t : Q) {struct val1} : value :=
  let strings_or_default :=
    if is_str val1 || is_str val2
    then (if 0.5 <? t then val2 else val1)
    else val2 in
  match as_number val1, as_number val2 with
  | Some a, Some b => VNum (a + (b - a) * t)
  | _, _ =>
      match val1, val2 with
      | VSeq k1 items1, VSeq _ items2 =>
          if (length items1 =? length items2)%nat then
            VSeq k1
              ((fix zipped (l1 l2 : list value) : list value :=
                  match l1, l2 with
                  | v1 :: l1', v2 :: l2' =>
                      _interpolate_value v1 v2 t :: zipped l1' l2'
                  | _, _ => []
                  end) items1 items2)
          else strings_or_default
      | _, _ => strings_or_default
      end
  end.

(** One key of [_interpolate_properties]: [None] stands for a key of
    neither table. *)
Definition interpolate_entry (t : Q) (o1 o2 : option value) : option value :=
  match o1, o2 with
  | None, None => None
  | _, _ =>
      let val1 := default VNone o1 in
      let val2 := default VNone o2 in
      Some (if is_none val1 then val2
            else if is_none val2 then val1
            else _interpolate_value val1 val2 t)
  end.

Definition _interpolate_properties (props1 props2 : gmap string value) (t : Q)
  : gmap string value :=
  merge (interpolate_entry t) props1 props2.

(** The scan for the surrounding pair, over consecutive keyframes. *)
Fixpoint find_bracket (eased_t : Q) (kfs : list Keyframe.t)
  : option (gmap string value) :=
  match kfs with
  | kf1 :: ((kf2 :: _) as rest) =>
      if (Keyframe.time kf1 <=? eased_t) && (eased_t <=? Keyframe.time kf2) then
        let local_t :=
          if negb (Keyframe.time kf2 =? Keyframe.time kf1)
          then (eased_t - Keyframe.time kf1)
               / (Keyframe.time kf2 - Keyframe.time kf1)
          else 0 in
        Some (_interpolate_properties
                (Keyframe.properties kf1) (Keyframe.properties kf2) local_t)
      else find_bracket eased_t rest
  | _ => None
  end.

Definition last_properties (kfs : list Keyframe.t) : gmap string value :=
  match kfs with
  | [] => ∅
  | kf :: _ => Keyframe.properties (List.last kfs kf)
  end.

Section WithPython.
Context `{Python}.

(** [__init__]. *)
Definition new (kfs : list Keyframe.t) (easing : string) : result t :=
  let self := mk (sorted_by Keyframe.time kfs) (Easing.get_easing_function easing) in
  _ ← _validate_keyframes self;
  Ok self.

Definition interpolate (self : t) (t : Q) : gmap string value :=
  let t := Qmax 0 (Qmin 1 t) in
  let eased_t := EasingFunction.call (easing_func self) t in
  match find_bracket eased_t (keyframes self) with
  | Some props => props
  | None => last_properties (keyframes self)
  end.
End WithPython.

End KeyframeInterpolator.

(** ** engine/core/types.py: frames and timelines *)

Module Frame.
Record t : Type := mk {
  timestamp : Q;
  elements : list (gmap string value)
}.
End Frame.

Module Timeline.
Record t : Type := mk {
  frames : list Frame.t;
  duration : Q;
  fps : Z;
  resolution : list Z;
  styles : option StyleConfig.t
}.
End Timeline.

(** [t[i]] on a tuple. *)
Definition tuple_get (t : list Z) (i : nat) : result Z :=
  match nth_error t i with
  | Some x => Ok x
  | None => Raise (IndexError "tuple index out of range")
  end.

(** ** engine/pipeline.py: the timeline compiler *)

Module MotionTypographyEngine.

(** The fields of the engine that compilation reads and writes. *)
Record t : Type := mk {
  resolution : list Z;
  fps : Z
}.

(** [min(1.0, max(0.0, x))]. *)
Definition clamp01 (x : Q) : Q := Qmin 1 (Qmax 0 x).

(** Lines 136-137. *)
Definition anim_progress (anim : Animation.t) (current_time word_start : Q) : Q :=
  let anim_elapsed := current_time - word_start - Animation.delay anim in
  if 0 <? Animation.duration anim
  then clamp01 (anim_elapsed / Animation.duration anim)
  else 1.

(** Lines 119-130: the default properties. *)
Definition base_element (self : t) (word : Word.t) (styles : StyleConfig.t)
  : result (gmap string value) :=
  w ← tuple_get (resolution self) 0;
  h ← tuple_get (resolution self) 1;
  Ok (list_to_map
        [ ("text", VStr (Word.text word));
          ("x", VNum (inject_Z (w / 2)));
          ("y", VNum (inject_Z (h / 2)));
          ("opacity", VNum 1);
          ("scale", VNum 1);
          ("rotation", VNum 0);
          ("color", VStr (match StyleConfig.color styles with
                          | Some c => if String.eqb c "" then "#FFFFFF" else c
                          | None => "#FFFFFF"
                          end));
          ("fontSize", VNum (inject_Z (StyleConfig.font_size styles)));
          ("fontFamily", VStr (StyleConfig.font_family styles));
          ("fontWeight", StyleConfig.font_weight styles) ]).

Section WithPython.
Context `{Python}.

(** Lines 133-146: the body of the loop over the animations. *)
Definition apply_animation (current_time word_start : Q)
    (element : gmap string value) (anim : Animation.t)
  : result (gmap string value) :=
  if String.eqb (Animation.selector anim) "word" then
    let progress := anim_progress anim current_time word_start in
    if progress <? 1 then
      keyframes ← Animation.get_keyframes anim;
      interpolator ← KeyframeInterpolator.new keyframes (Animation.easing anim);
      let props := KeyframeInterpolator.interpolate interpolator progress in
      Ok (props ∪ element)
    else Ok element
  else Ok element.

(** Lines 149-150. *)
Definition attach_shadow (styles : StyleConfig.t) (element : gmap string value)
  : gmap string value :=
  match StyleConfig.effects styles with
  | Some effects =>
      match EffectConfig.shadow effects with
      | Some shadow =>
          if bool_decide (shadow = ∅) then element
          else <["shadow" := VDict shadow]> element
      | None => element
      end
  | None => element
  end.

(** The word's own progress of lines 114-116 is computed and not used;
    it cannot raise and is left out. *)
Definition _create_element (self : t) (word : Word.t) (segment : Segment.t)
    (styles : StyleConfig.t) (current_time segment_start word_start : Q)
  : result (gmap string value) :=
  element ← base_element self word styles;
  element ← foldM (apply_animation current_time word_start)
                  (StyleConfig.animations styles) element;
  Ok (attach_shadow styles element).

Definition active (lo hi timestamp : Q) : bool :=
  (lo <=? timestamp) && (timestamp <=? hi).

Definition _get_elements_at_time (self : t) (transcript : Transcript.t)
    (styles : StyleConfig.t) (timestamp : Q)
  : result (list (gmap string value)) :=
  foldM (fun (elements : list (gmap string value)) segment =>
           if active (Segment.start segment) (Segment.end_ segment) timestamp then
             foldM (fun (elements : list (gmap string value)) word =>
                      if active (Word.start word) (Word.end_ word) timestamp then
                        element ← _create_element self word segment styles
                                    timestamp (Segment.start segment)
                                    (Word.start word);
                        Ok (elements ++ [element])%list
                      else Ok elements)
                   (Segment.words segment) elements
           else Ok elements)
        (Transcript.segments transcript) [].

(** [compile]: the result carries the engine as the call leaves it.  The
    frame duration divides by [self.fps], which [validate_styles] has
    checked to be positive. *)
Definition compile (self : t) (transcript : Transcript.t) (styles : StyleConfig.t)
  : result (t * Timeline.t) :=
  transcript ← Validator.validate_transcript transcript;
  _ ← StyleValidator.validate_styles styles;
  let self :=
    match StyleConfig.resolution styles with
    | [] => self
    | _ :: _ => mk (StyleConfig.resolution styles) (fps self)
    end in
  let self :=
    if (StyleConfig.fps styles =? 0)%Z then self
    else mk (resolution self) (StyleConfig.fps styles) in
  let frame_duration := 1 / inject_Z (fps self) in
  let total_frames :=
    (py_int (Transcript.duration transcript * inject_Z (fps self)) + 1)%Z in
  frames ← mapM (fun frame_idx : nat =>
                   let current_time :=
                     inject_Z (Z.of_nat frame_idx) * frame_duration in
                   elements ← _get_elements_at_time self transcript styles
                                current_time;
                   Ok (Frame.mk current_time elements))
                (seq 0 (Z.to_nat total_frames));
  Ok (self,
      Timeline.mk frames (Transcript.duration transcript) (fps self)
        (resolution self) (Some styles)).
End WithPython.

End MotionTypographyEngine.

(** ** engine/pipeline.py: the loop of [render] over the frames

    Lines 213-261, one iteration per frame.  The rasterizer, the background
    reader, the GPU transfers and effects and the encoder's pipe are
    collaborators outside the repository's logic; each is a function that
    may raise.  The frame index a call is made for is an argument, so that
    a collaborator may fail for one frame and not for another one with the
    same content.  What [render] does before the loop (it builds the
    renderer, the effect objects, the reader and the encoder) and after it
    is not embedded. *)

Module Render.

(** A [uint8] array of shape (height, width, 4), as rows of pixels. *)
Definition pixel : Type := Z * Z * Z * Z.
Definition Image : Type := list (list pixel).

Definition shape (img : Image) : nat * nat :=
  (length img, match img with [] => 0%nat | row :: _ => length row end).

(** The effect objects of lines 179-194, with their constructor arguments. *)
Inductive Effect : Type :=
| GaussianBlur (radius : value)
| GlowEffect (intensity radius color : value).

(** Storing a Python [int] of 0..255 into a [uint8] array keeps it (outside
    that range the versions of numpy differ; the embedding keeps the low
    byte). *)
Definition uint8 (z : Z) : Z := (z mod 256)%Z.

Definition uint8_pixel (c : Z * Z * Z * Z) : pixel :=
  let '(r, g, b, a) := c in (uint8 r, uint8 g, uint8 b, uint8 a).

(** Lines 257-259: [np.zeros((h, w, 4))] filled with the background. *)
Definition solid_frame (resolution : list Z) (background_color : Z * Z * Z * Z)
  : result Image :=
  h ← tuple_get resolution 1;
  w ← tuple_get resolution 0;
  if ((h <? 0) || (w <? 0))%Z
  then Raise (ValueError "negative dimensions are not allowed")
  else Ok (repeat (repeat (uint8_pixel background_color) (Z.to_nat w))
                  (Z.to_nat h)).

(** Lines 227-234 on one pixel: the text layer over the background, with
    the text layer's alpha as weight; [astype(np.uint8)] truncates. *)
Definition blend_pixel (text bg : pixel) : pixel :=
  let '(r, g, b, a) := text in
  let '(br, bgr, bb, _) := bg in
  let alpha := inject_Z a / 255 in
  let mix c cb := py_int (inject_Z c * alpha + inject_Z cb * (1 - alpha)) in
  (mix r br, mix g bgr, mix b bb, py_int (alpha * 255)).

(** The arrays must have one shape (numpy's broadcasting of a dimension of
    size one is not modelled: the reader resizes to the target first). *)
Definition blend (text bg : Image) : result Image :=
  if bool_decide (map (@length pixel) text = map (@length pixel) bg)
  then Ok (zip_with (zip_with blend_pixel) text bg)
  else Raise (ValueError "operands could not be broadcast together").

(** [FFmpegEncoder]: its size and what went through its pipe so far. *)
Module Encoder.
Record t : Type := mk {
  width : Z;
  height : Z;
  written : list Image
}.
End Encoder.

Section WithCollaborators.
Variables Tensor Reader : Type.

Record Collaborators : Type := {
  render_frame :
    nat -> list Z -> StyleConfig.t -> list (gmap string value)
    -> Z * Z * Z * Z -> result Image;
  get_frame : Reader -> nat -> Q -> result (option Image);
  resize_frame : Reader -> nat -> Image -> list Z -> result Image;
  transfer_to_gpu : nat -> Image -> result Tensor;
  effect_apply : nat -> Effect -> Tensor -> result Tensor;
  transfer_to_cpu : nat -> Tensor -> result Image;
  stdin_write : list Image -> Image -> result unit
}.

Variable C : Collaborators.

(** [FFmpegEncoder.write_frame]. *)
Definition write_frame (enc : Encoder.t) (frame : Image) : result Encoder.t :=
  let '(h, w) := shape frame in
  if negb ((Z.of_nat h =? Encoder.height enc)%Z
           && (Z.of_nat w =? Encoder.width enc)%Z)
  then Raise (EncodingError "Frame size mismatch")
  else match stdin_write C (Encoder.written enc) frame with
       | Ok _ =>
           Ok (Encoder.mk (Encoder.width enc) (Encoder.height enc)
                 (Encoder.written enc ++ [frame]))
       | Raise _ => Raise (EncodingError "Failed to write frame")
       end.

Section PerFrame.
Variable timeline : Timeline.t.
Variable styles : StyleConfig.t.
Variable effects : list Effect.
Variable video_reader : option Reader.

(** Lines 216-234: the text layer, over the background if there is one. *)
Definition composite (frame_idx : nat) (frame : Frame.t) : result Image :=
  frame_array ← render_frame C frame_idx (Timeline.resolution timeline) styles
                  (Frame.elements frame) (StyleConfig.background_color styles);
  match video_reader with
  | Some reader =>
      bg_frame ← get_frame C reader frame_idx (Frame.timestamp frame);
      match bg_frame with
      | Some bg_frame =>
          bg_frame ← resize_frame C reader frame_idx bg_frame
                       (Timeline.resolution timeline);
          blend frame_array bg_frame
      | None => Ok frame_array
      end
  | None => Ok frame_array
  end.

(** Lines 239-242: the body of the inner [try]. *)
Definition gpu_chain (frame_idx : nat) (frame_array : Image) : result Image :=
  frame_tensor ← transfer_to_gpu C frame_idx frame_array;
  frame_tensor ← foldM (fun tensor effect => effect_apply C frame_idx effect tensor)
                       effects frame_tensor;
  transfer_to_cpu C frame_idx frame_tensor.

(** Lines 237-244: the inner [try] with its handler, which keeps the
    frame as it was. *)
Definition apply_effects (frame_idx : nat) (frame_array : Image) : Image :=
  match effects with
  | [] => frame_array
  | _ :: _ =>
      match gpu_chain frame_idx frame_array with
      | Ok frame_array' => frame_array'
      | Raise _ => frame_array
      end
  end.

(** Lines 214-261: one iteration, the outer [try] with its handler. *)
Definition render_one (enc : Encoder.t) (frame_idx : nat) (frame : Frame.t)
  : result Encoder.t :=
  match (frame_array ← composite frame_idx frame;
         write_frame enc (apply_effects frame_idx frame_array)) with
  | Ok enc' => Ok enc'
  | Raise _ =>
      frame_array ← solid_frame (Timeline.resolution timeline)
                      (StyleConfig.background_color styles);
      write_frame enc frame_array
  end.

(** [for frame_idx, frame in enumerate(frames)], from index [frame_idx]. *)
Fixpoint render_frames (enc : Encoder.t) (frame_idx : nat) (frames : list Frame.t)
  : result Encoder.t :=
  match frames with
  | [] => Ok enc
  | frame :: frames' =>
      enc' ← render_one enc frame_idx frame;
      render_frames enc' (S frame_idx) frames'
  end.
End PerFrame.

End WithCollaborators.

End Render.

(** * Properties *)

(** ** Comparisons *)

Lemma Qltb_spec (x y : Q) : BoolSpec (x < y) (y <= x) (x <? y).
Proof.
  unfold Qltb. destruct (Qcompare x y) eqn:E; constructor.
  - apply Qeq_alt in E. rewrite E. apply Qle_refl.
  - now apply Qlt_alt.
  - apply Qgt_alt in E. now apply Qlt_le_weak.
Qed.

Lemma Qleb_spec (x y : Q) : BoolSpec (x <= y) (y < x) (x <=? y).
Proof.
  unfold Qleb. destruct (Qle_bool x y) eqn:E; constructor.
  - now apply Qle_bool_iff.
  - apply Qnot_le_lt. intros Hle. apply Qle_bool_iff in Hle. congruence.
Qed.

Lemma Qeqb_spec (x y : Q) : BoolSpec (x == y) (~ x == y) (x =? y).
Proof.
  unfold Qeqb. destruct (Qeq_bool x y) eqn:E; constructor.
  - now apply Qeq_bool_iff.
  - intros Heq. apply Qeq_bool_iff in Heq. congruence.
Qed.

(** Case analysis on every comparison of floats in sight. *)
Ltac qcases :=
  repeat match goal with
    | |- context [Qltb ?a ?b] => destruct (Qltb_spec a b)
    | |- context [Qleb ?a ?b] => destruct (Qleb_spec a b)
    | |- context [Qeqb ?a ?b] => destruct (Qeqb_spec a b)
    | H : context [Qltb ?a ?b] |- _ => destruct (Qltb_spec a b)
    | H : context [Qleb ?a ?b] |- _ => destruct (Qleb_spec a b)
    | H : context [Qeqb ?a ?b] |- _ => destruct (Qeqb_spec a b)
    end.

Lemma Qmin_cases (x y : Q) : (x <= y /\ Qmin x y = x) \/ (y < x /\ Qmin x y = y).
Proof.
  unfold Qmin, GenericMinMax.gmin. destruct (Qcompare x y) eqn:E.
  - left. split; [|reflexivity]. apply Qeq_alt in E. rewrite E. apply Qle_refl.
  - left. split; [|reflexivity]. apply Qlt_alt in E. now apply Qlt_le_weak.
  - right. split; [|reflexivity]. now apply Qgt_alt in E.
Qed.

Lemma Qmax_cases (x y : Q) : (y <= x /\ Qmax x y = x) \/ (x < y /\ Qmax x y = y).
Proof.
  unfold Qmax, GenericMinMax.gmax. destruct (Qcompare x y) eqn:E.
  - left. split; [|reflexivity]. apply Qeq_alt in E. rewrite E. apply Qle_refl.
  - right. split; [|reflexivity]. now apply Qlt_alt in E.
  - left. split; [|reflexivity]. apply Qgt_alt in E. now apply Qlt_le_weak.
Qed.

(** The generator forms of [min] and [max] return an element of the
    sequence that bounds all of them. *)
Definition is_min (m : Q) (l : list Q) : Prop := In m l /\ forall x, In x l -> m <= x.
Definition is_max (m : Q) (l : list Q) : Prop := In m l /\ forall x, In x l -> x <= m.

Lemma py_min_from_spec (l : list Q) : forall acc, is_min (py_min_from acc l) (acc :: l).
Proof.
  induction l as [|x l IH]; intros acc; simpl.
  - split; [now left|]. intros y [<-|[]]. apply Qle_refl.
  - destruct (IH (if x <? acc then x else acc)) as [Hin Hle]. split.
    + destruct Hin as [Hin|Hin]; [|now right; right].
      rewrite <- Hin. destruct (x <? acc); [right; now left | now left].
    + intros y Hy.
      assert (Hm : py_min_from (if x <? acc then x else acc) l
                   <= (if x <? acc then x else acc)) by (apply Hle; now left).
      destruct Hy as [<-|[<-|Hy]].
      * destruct (Qltb_spec x acc); lra.
      * destruct (Qltb_spec x acc); lra.
      * apply Hle. now right.
Qed.

Lemma py_max_from_spec (l : list Q) : forall acc, is_max (py_max_from acc l) (acc :: l).
Proof.
  induction l as [|x l IH]; intros acc; simpl.
  - split; [now left|]. intros y [<-|[]]. apply Qle_refl.
  - destruct (IH (if acc <? x then x else acc)) as [Hin Hle]. split.
    + destruct Hin as [Hin|Hin]; [|now right; right].
      rewrite <- Hin. destruct (acc <? x); [right; now left | now left].
    + intros y Hy.
      assert (Hm : (if acc <? x then x else acc)
                   <= py_max_from (if acc <? x then x else acc) l) by (apply Hle; now left).
      destruct Hy as [<-|[<-|Hy]].
      * destruct (Qltb_spec acc x); lra.
      * destruct (Qltb_spec acc x); lra.
      * apply Hle. now right.
Qed.

(** ** The transcript validator *)

Definition has_words (s : Segment.t) : bool :=
  match Segment.words s with [] => false | _ :: _ => true end.

Lemma fix_word_range_start (seg : Segment.t) (w : Word.t) :
  Word.start (Validator.fix_word_range seg w) = Word.start w
  /\ Word.text (Validator.fix_word_range seg w) = Word.text w
  /\ Word.id (Validator.fix_word_range seg w) = Word.id w.
Proof.
  unfold Validator.fix_word_range.
  destruct (Word.end_ w <? Word.start w); [easy|].
  destruct (Word.end_ w =? Word.start w); easy.
Qed.

Lemma expand_to_bounds (seg : Segment.t) (w : Word.t) :
  Segment.start (Validator.expand_to seg w) <= Segment.start seg
  /\ Segment.end_ seg <= Segment.end_ (Validator.expand_to seg w)
  /\ Segment.start (Validator.expand_to seg w) <= Word.start w
  /\ Word.end_ w <= Segment.end_ (Validator.expand_to seg w).
Proof.
  unfold Validator.expand_to.
  destruct (Qltb_spec (Word.start w) (Segment.start seg)); simpl;
    match goal with |- context [Qltb ?a ?b] => destruct (Qltb_spec a b) end;
    simpl in *; repeat split; lra.
Qed.

Lemma expand_to_words (seg : Segment.t) (w : Word.t) :
  Segment.words (Validator.expand_to seg w) = Segment.words seg.
Proof.
  unfold Validator.expand_to.
  destruct (Word.start w <? Segment.start seg); simpl;
    match goal with |- context [Qltb ?a ?b] => destruct (Qltb a b) end; reflexivity.
Qed.

Lemma fix_words_cons (seg : Segment.t) (w : Word.t) (ws : list Word.t) :
  Validator.fix_words seg (w :: ws)
  = (fst (Validator.fix_words
            (Validator.expand_to seg (Validator.fix_word_range seg w)) ws),
     Validator.fix_word_range seg w
     :: snd (Validator.fix_words
               (Validator.expand_to seg (Validator.fix_word_range seg w)) ws)).
Proof. simpl. now destruct (Validator.fix_words _ ws). Qed.

Lemma fix_words_length (ws : list Word.t) : forall seg,
  length (snd (Validator.fix_words seg ws)) = length ws.
Proof.
  induction ws as [|w ws IH]; intros seg; [reflexivity|].
  rewrite fix_words_cons. simpl. now rewrite IH.
Qed.

(** The word at position [j] is repaired against the segment as the loop
    has left it after the first [j] words. *)
Lemma fix_words_lookup (ws : list Word.t) : forall seg j w,
  ws !! j = Some w ->
  snd (Validator.fix_words seg ws) !! j
  = Some (Validator.fix_word_range (fst (Validator.fix_words seg (take j ws))) w).
Proof.
  induction ws as [|w0 ws IH]; intros seg j w Hj; [destruct j; discriminate|].
  rewrite fix_words_cons. destruct j as [|j]; simpl in Hj.
  - inversion Hj; subst. reflexivity.
  - change (take (S j) (w0 :: ws)) with (w0 :: take j ws).
    rewrite fix_words_cons. simpl. now apply IH.
Qed.

Lemma fix_words_expand (ws : list Word.t) : forall seg,
  Segment.start (fst (Validator.fix_words seg ws)) <= Segment.start seg
  /\ Segment.end_ seg <= Segment.end_ (fst (Validator.fix_words seg ws)).
Proof.
  induction ws as [|w ws IH]; intros seg.
  - simpl. split; apply Qle_refl.
  - rewrite fix_words_cons. simpl.
    destruct (IH (Validator.expand_to seg (Validator.fix_word_range seg w))) as [H1 H2].
    destruct (expand_to_bounds seg (Validator.fix_word_range seg w)) as (E1 & E2 & _).
    split; lra.
Qed.

Lemma fix_words_cover (ws : list Word.t) : forall seg w',
  In w' (snd (Validator.fix_words seg ws)) ->
  Segment.start (fst (Validator.fix_words seg ws)) <= Word.start w'
  /\ Word.end_ w' <= Segment.end_ (fst (Validator.fix_words seg ws)).
Proof.
  induction ws as [|w ws IH]; intros seg w' Hin; [destruct Hin|].
  rewrite fix_words_cons in *. simpl in *.
  destruct Hin as [<-|Hin]; [|now apply IH].
  destruct (fix_words_expand ws
              (Validator.expand_to seg (Validator.fix_word_range seg w))) as [H1 H2].
  destruct (expand_to_bounds seg (Validator.fix_word_range seg w)) as (_ & _ & E3 & E4).
  split; lra.
Qed.

Lemma fix_words_fields (ws : list Word.t) : forall seg,
  Segment.words (fst (Validator.fix_words seg ws)) = Segment.words seg.
Proof.
  induction ws as [|w ws IH]; intros seg; [reflexivity|].
  rewrite fix_words_cons. simpl. rewrite IH. apply expand_to_words.
Qed.

Lemma clamp_start_fields (s : Segment.t) :
  Segment.words (Validator.clamp_start s) = Segment.words s
  /\ Segment.end_ (Validator.clamp_start s) = Segment.end_ s
  /\ Segment.start s <= Segment.start (Validator.clamp_start s)
  /\ 0 <= Segment.start (Validator.clamp_start s).
Proof.
  unfold Validator.clamp_start.
  destruct (Qltb_spec (Segment.start s) 0); simpl; repeat split; lra.
Qed.

Lemma fix_range_words (s : Segment.t) :
  Segment.words (Validator.fix_range s) = Segment.words s.
Proof.
  unfold Validator.fix_range.
  destruct (Segment.end_ s <=? Segment.start s); [|reflexivity].
  destruct (py_min _); [|reflexivity]. destruct (py_max _); [|reflexivity].
  simpl. destruct (_ <=? _); reflexivity.
Qed.

(** What the reset of lines 27-34 leaves in a degenerate segment. *)
Lemma fix_range_degenerate (s : Segment.t) :
  Segment.words s <> [] ->
  Segment.end_ s <= Segment.start s ->
  is_min (Segment.start (Validator.fix_range s)) (map Word.start (Segment.words s))
  /\ exists hi, is_max hi (map Word.end_ (Segment.words s))
       /\ ((Segment.start (Validator.fix_range s) < hi
            /\ Segment.end_ (Validator.fix_range s) = hi)
           \/ (hi <= Segment.start (Validator.fix_range s)
               /\ Segment.end_ (Validator.fix_range s)
                  = Segment.start (Validator.fix_range s) + 0.1)).
Proof.
  intros Hne Hdeg. unfold Validator.fix_range.
  destruct (Qleb_spec (Segment.end_ s) (Segment.start s)); [|lra].
  destruct (Segment.words s) as [|w ws]; [congruence|]. simpl.
  pose proof (py_min_from_spec (map Word.start ws) (Word.start w)) as Hmin.
  pose proof (py_max_from_spec (map Word.end_ ws) (Word.end_ w)) as Hmax.
  match goal with |- context [Qleb ?a ?b] => destruct (Qleb_spec a b) end; simpl.
  - split; [exact Hmin|]. eexists. split; [exact Hmax|]. right. now split.
  - split; [exact Hmin|]. eexists. split; [exact Hmax|]. left. now split.
Qed.

(** What [validate_transcript] has done to a segment [s] that it keeps, the
    kept segment being [s'].  [s1] is the segment after the reset of its
    range and before the loop over its words. *)
Definition repaired_from (s s' : Segment.t) : Prop :=
  let s1 := Validator.fix_range (Validator.clamp_start s) in
  (* a degenerate range is recomputed from the words, then padded *)
  (Segment.end_ s <= Segment.start s ->
     is_min (Segment.start s1) (map Word.start (Segment.words s))
     /\ exists hi, is_max hi (map Word.end_ (Segment.words s))
          /\ ((Segment.start s1 < hi /\ Segment.end_ s1 = hi)
              \/ (hi <= Segment.start s1 /\ Segment.end_ s1 = Segment.start s1 + 0.1)))
  (* word by word: start, text and id are kept, the end is repaired *)
  /\ length (Segment.words s') = length (Segment.words s)
  /\ (forall (j : nat) (w w' : Word.t),
        Segment.words s !! j = Some w ->
        Segment.words s' !! j = Some w' ->
        Word.start w' = Word.start w /\ Word.text w' = Word.text w
        /\ Word.id w' = Word.id w
        /\ (Word.end_ w < Word.start w -> Word.end_ w' = Word.start w + 0.01)
        /\ (Word.end_ w == Word.start w ->
              Word.end_ w'
              = Qmin (Word.start w + 0.01)
                     (Segment.end_
                        (fst (Validator.fix_words s1 (take j (Segment.words s))))))
        /\ (Word.start w < Word.end_ w -> w' = w))
  (* the bounds only grow: down to every word's start, up to every word's end *)
  /\ Segment.start s' <= Segment.start s1
  /\ Segment.end_ s1 <= Segment.end_ s'
  /\ (forall w', In w' (Segment.words s') ->
        Segment.start s' <= Word.start w' /\ Word.end_ w' <= Segment.end_ s').

Lemma validate_segment_none (s : Segment.t) :
  has_words s = false -> Validator.validate_segment s = None.
Proof.
  unfold has_words, Validator.validate_segment. intros Hw.
  destruct (clamp_start_fields s) as (-> & _).
  now destruct (Segment.words s).
Qed.

Lemma validate_segment_some (s : Segment.t) :
  has_words s = true ->
  exists s', Validator.validate_segment s = Some s' /\ repaired_from s s'.
Proof.
  unfold has_words. intros Hw.
  assert (Hne : Segment.words s <> []) by (destruct (Segment.words s); congruence).
  set (s1 := Validator.fix_range (Validator.clamp_start s)).
  assert (Hws1 : Segment.words s1 = Segment.words s).
  { unfold s1. rewrite fix_range_words. apply clamp_start_fields. }
  exists (Segment.set_words (fst (Validator.fix_words s1 (Segment.words s)))
            (snd (Validator.fix_words s1 (Segment.words s)))).
  split.
  - unfold Validator.validate_segment.
    destruct (clamp_start_fields s) as (-> & _).
    destruct (Segment.words s) as [|w ws] eqn:E; [congruence|].
    fold s1. rewrite Hws1. now destruct (Validator.fix_words s1 (w :: ws)).
  - unfold repaired_from. fold s1. simpl.
    split; [|split; [|split; [|split; [|split]]]].
    + intros Hdeg. destruct (clamp_start_fields s) as (W & E & S & _).
      unfold s1. rewrite <- W.
      apply fix_range_degenerate; [now rewrite W | rewrite E; lra].
    + apply fix_words_length.
    + intros j w w' Hj Hj'.
      rewrite (fix_words_lookup _ s1 j w Hj) in Hj'. inversion Hj' as [Hw']. clear Hj'.
      set (seg := fst (Validator.fix_words s1 (take j (Segment.words s)))).
      destruct (fix_word_range_start seg w) as (Hs & Ht & Hi).
      repeat split; try assumption.
      * intros Hlt. unfold Validator.fix_word_range.
        destruct (Qltb_spec (Word.end_ w) (Word.start w)); [reflexivity|lra].
      * intros Heq. unfold Validator.fix_word_range.
        destruct (Qltb_spec (Word.end_ w) (Word.start w)); [lra|].
        destruct (Qeqb_spec (Word.end_ w) (Word.start w)); [reflexivity|contradiction].
      * intros Hgt. unfold Validator.fix_word_range.
        destruct (Qltb_spec (Word.end_ w) (Word.start w)); [lra|].
        destruct (Qeqb_spec (Word.end_ w) (Word.start w)) as [Heq|]; [|reflexivity].
        rewrite Heq in Hgt. exfalso. now apply (Qlt_irrefl (Word.start w)).
    + apply fix_words_expand.
    + apply fix_words_expand.
    + apply fix_words_cover.
Qed.

Lemma omap_validate_segment (l : list Segment.t) :
  Forall2 repaired_from (List.filter has_words l) (omap Validator.validate_segment l).
Proof.
  induction l as [|s l IH]; simpl; [constructor|].
  destruct (has_words s) eqn:Hw.
  - destruct (validate_segment_some s Hw) as (s' & -> & Hrep). now constructor.
  - now rewrite (validate_segment_none s Hw).
Qed.

(** Every segment with at least one word is kept, in order, and repaired:
    a segment with [end <= start] takes the minimum word start and the
    maximum word end (padded to [start + 0.1] when that is still
    degenerate); a word with [end < start] gets [end = start + 0.01], a word
    with [end == start] gets [end = min(start + 0.01, segment.end)]; after
    that the segment's bounds have only grown, the start down to every
    word's start and the end up to every word's end. *)
Lemma validate_transcript_repairs (tr tr' : Transcript.t) :
  Validator.validate_transcript tr = Ok tr' ->
  Forall2 repaired_from
    (List.filter has_words (Transcript.segments tr)) (Transcript.segments tr')
  /\ Transcript.duration tr' = Transcript.duration tr.
Proof.
  unfold Validator.validate_transcript. intros H.
  destruct (Transcript.segments tr) as [|s0 l0] eqn:Es; [discriminate|].
  destruct (omap Validator.validate_segment (s0 :: l0)) as [|s1 l1] eqn:Eo;
    [discriminate|].
  inversion H; subst; clear H. split; [|reflexivity].
  cbn [Transcript.set_segments Transcript.segments].
  rewrite <- Eo. apply (omap_validate_segment (s0 :: l0)).
Qed.

(** The design document's example: a segment with [end <= start] whose
    words span [2, 5], one of them with [end < start]. *)
Definition degenerate_transcript : Transcript.t :=
  Transcript.mk
    [ Segment.mk "two words" 7 3
        [ Word.mk "two" 2 3 None; Word.mk "words" 4.5 4 None; Word.mk "end" 4 5 None ]
        None None ]
    6 None None.

Definition degenerate_transcript_repaired : Transcript.t :=
  Transcript.mk
    [ Segment.mk "two words" 2 5
        [ Word.mk "two" 2 3 None; Word.mk "words" 4.5 (4.5 + 0.01) None;
          Word.mk "end" 4 5 None ]
        None None ]
    6 None None.

Example validate_degenerate_transcript :
  Validator.validate_transcript degenerate_transcript = Ok degenerate_transcript_repaired.
Proof. reflexivity. Qed.

(** A zero-length word that starts after its segment has ended.  The padding
    [min(start + 0.01, segment.end)] moves the word's end before its start,
    and a second run then repairs the word again and moves the segment. *)
Definition late_word_transcript : Transcript.t :=
  Transcript.mk
    [ Segment.mk "late" 0 1 [ Word.mk "late" 5 5 None ] None None ]
    6 None None.

Definition late_word_once : Transcript.t :=
  Transcript.mk
    [ Segment.mk "late" 0 1 [ Word.mk "late" 5 1 None ] None None ]
    6 None None.

Definition late_word_twice : Transcript.t :=
  Transcript.mk
    [ Segment.mk "late" 0 (5 + 0.01) [ Word.mk "late" 5 (5 + 0.01) None ] None None ]
    6 None None.

(** C6 fails on the code: the second run of [validate_transcript] changes
    the end of the word and the end of the segment that the first run left. *)
Theorem validate_transcript_second_run_mutates :
  Validator.validate_transcript late_word_transcript = Ok late_word_once
  /\ Validator.validate_transcript late_word_once = Ok late_word_twice
  /\ late_word_once <> late_word_twice.
Proof.
  split; [reflexivity|]. split; [reflexivity|]. discriminate.
Qed.

(** C5 fails on the code, in its last part.  The word of
    [late_word_transcript] has [end == start], so its end becomes
    [min(start + 0.01, segment.end)], the segment's end, which is before
    the word's start; the expansion then compares the word's start with the
    segment's start and the word's end with the segment's end, and changes
    neither.  The segment that is kept ends at 1 and its word starts at 5:
    the bounds do not cover the word. *)
Theorem validate_transcript_leaves_word_uncovered :
  exists (tr' : Transcript.t) (seg : Segment.t) (w : Word.t),
    Validator.validate_transcript late_word_transcript = Ok tr'
    /\ Transcript.segments tr' = [seg]
    /\ Segment.words seg = [w]
    /\ Segment.start seg = 0 /\ Segment.end_ seg = 1
    /\ Word.start w = 5 /\ Word.end_ w = 1
    /\ Segment.end_ seg < Word.start w
    /\ Word.end_ w < Word.start w.
Proof.
  exists late_word_once, (Segment.mk "late" 0 1 [ Word.mk "late" 5 1 None ] None None),
         (Word.mk "late" 5 1 None).
  repeat (split; [reflexivity|]). reflexivity.
Qed.

(** ** The easing registry *)

Lemma assoc_In {A : Type} (name : string) (d : list (string * A)) (v : A) :
  Easing.assoc name d = Some v -> In name (map fst d).
Proof.
  induction d as [|[key x] d IH]; simpl; [discriminate|].
  destruct (String.eqb_spec key name) as [->|Hne]; [now left|].
  intros H. right. now apply IH.
Qed.

Section EasingRegistry.
Context `{Python}.

Lemma scan_lower_none {A : Type} (name_lower : string) (d : list (string * A)) :
  Easing.scan_lower name_lower d = None <->
  (forall key v, In (key, v) d -> str_lower key <> name_lower).
Proof.
  induction d as [|[key x] d IH]; simpl.
  - split; [intros _ ? ? []|reflexivity].
  - destruct (String.eqb_spec (str_lower key) name_lower) as [E|Hne].
    + split; [discriminate|]. intros Hn. exfalso. apply (Hn key x); [now left|exact E].
    + rewrite IH. split.
      * intros Hn k v [[= <- <-]|Hin]; [exact Hne|now apply (Hn k v)].
      * intros Hn k v Hin. apply (Hn k v). now right.
Qed.

(** With keys that stay distinct in lower case, the exact match of line
    221 and the scan of lines 224-226 find the same entry. *)
Lemma assoc_scan_lower {A : Type} (name : string) (d : list (string * A)) (v : A) :
  NoDup (map (fun kv => str_lower (fst kv)) d) ->
  Easing.assoc name d = Some v ->
  Easing.scan_lower (str_lower name) d = Some v.
Proof.
  induction d as [|[key x] d IH]; simpl; [discriminate|].
  intros Hnd Hassoc. inversion Hnd as [|? ? Hfresh Hnd']; subst.
  destruct (String.eqb_spec key name) as [->|Hne].
  - now rewrite String.eqb_refl.
  - destruct (String.eqb_spec (str_lower key) (str_lower name)) as [E|_];
      [|now apply IH].
    exfalso. apply Hfresh. rewrite E.
    apply assoc_In in Hassoc. apply list_elem_of_In.
    apply in_map_iff in Hassoc as ((k & y) & Hk & Hin). simpl in Hk. subst k.
    apply in_map_iff. exists (name, y). now split.
Qed.

Lemma lookup_in_scan (d : list (string * EasingFunction.t)) (name : string) :
  NoDup (map (fun kv => str_lower (fst kv)) d) ->
  Easing.lookup_in d name
  = match Easing.scan_lower (str_lower name) d with
    | Some func => func
    | None => EasingFunction.linear
    end.
Proof.
  intros Hnd. unfold Easing.lookup_in.
  destruct (Easing.assoc name d) as [func|] eqn:E; [|reflexivity].
  now rewrite (assoc_scan_lower name d func Hnd E).
Qed.

(** The keys of the registry are ASCII strings, so their lower-case forms
    are the ones [lower] computes; they are pairwise distinct. *)
Lemma _EASING_MAP_lower (key : string) (func : EasingFunction.t) :
  In (key, func) Easing._EASING_MAP -> str_lower key = lower key.
Proof.
  intros Hin. apply str_lower_ascii.
  assert (Hall : forallb (fun kv => is_ascii (fst kv)) Easing._EASING_MAP = true)
    by (vm_compute; reflexivity).
  rewrite forallb_forall in Hall. apply (Hall (key, func) Hin).
Qed.

Lemma _EASING_MAP_lower_NoDup :
  NoDup (map (fun kv => str_lower (fst kv)) Easing._EASING_MAP).
Proof.
  assert (E : map (fun kv => str_lower (fst kv)) Easing._EASING_MAP
              = map (fun kv => lower (fst kv)) Easing._EASING_MAP).
  { apply map_ext_in. intros [key func] Hin. now apply (_EASING_MAP_lower key func). }
  rewrite E. apply (bool_decide_unpack _). vm_compute. reflexivity.
Qed.

Lemma scan_lower_In {A : Type} (d : list (string * A)) (key : string) (v : A) :
  NoDup (map (fun kv => str_lower (fst kv)) d) ->
  In (key, v) d ->
  Easing.scan_lower (str_lower key) d = Some v.
Proof.
  induction d as [|[k x] d IH]; simpl; [intros _ []|].
  intros Hnd Hin. inversion Hnd as [|? ? Hfresh Hnd']; subst.
  destruct Hin as [[= -> ->]|Hin]; [now rewrite String.eqb_refl|].
  destruct (String.eqb_spec (str_lower k) (str_lower key)) as [E|_]; [|now apply IH].
  exfalso. apply Hfresh. rewrite E. apply list_elem_of_In.
  apply in_map_iff. exists (key, v). now split.
Qed.

(** C8.  [get_easing_function] is a total function of the name, so the
    lookup never raises.  Two names with the same lower-case form resolve
    to the same curve function; a name resolves to the function registered
    under any key it matches without regard to case; a name that matches
    no key of the registry resolves to [linear].  For names of ASCII
    characters the lower-case form is the one that maps A-Z to a-z: a name
    spelled like a key except for the case of its letters resolves to that
    key's function. *)
Theorem get_easing_function_case_insensitive :
  (forall name1 name2 : string,
     str_lower name1 = str_lower name2 ->
     Easing.get_easing_function name1 = Easing.get_easing_function name2)
  /\ (forall (name key : string) (func : EasingFunction.t),
        In (key, func) Easing._EASING_MAP ->
        str_lower name = str_lower key ->
        Easing.get_easing_function name = func)
  /\ (forall name : string,
        (forall key func, In (key, func) Easing._EASING_MAP ->
           str_lower key <> str_lower name) ->
        Easing.get_easing_function name = EasingFunction.linear)
  /\ (forall (name key : string) (func : EasingFunction.t),
        In (key, func) Easing._EASING_MAP ->
        is_ascii name = true -> lower name = lower key ->
        Easing.get_easing_function name = func)
  /\ (forall name : string,
        is_ascii name = true ->
        (forall key func, In (key, func) Easing._EASING_MAP -> lower key <> lower name) ->
        Easing.get_easing_function name = EasingFunction.linear).
Proof.
  assert (Hcase : forall name1 name2 : string,
            str_lower name1 = str_lower name2 ->
            Easing.get_easing_function name1 = Easing.get_easing_function name2).
  { intros name1 name2 E. unfold Easing.get_easing_function.
    rewrite !(lookup_in_scan _ _ _EASING_MAP_lower_NoDup). now rewrite E. }
  assert (Hkey : forall (name key : string) (func : EasingFunction.t),
            In (key, func) Easing._EASING_MAP ->
            str_lower name = str_lower key ->
            Easing.get_easing_function name = func).
  { intros name key func Hin E. unfold Easing.get_easing_function.
    rewrite (lookup_in_scan _ _ _EASING_MAP_lower_NoDup), E.
    now rewrite (scan_lower_In _ key func _EASING_MAP_lower_NoDup Hin). }
  assert (Hnone : forall name : string,
            (forall key func, In (key, func) Easing._EASING_MAP ->
               str_lower key <> str_lower name) ->
            Easing.get_easing_function name = EasingFunction.linear).
  { intros name Hno. unfold Easing.get_easing_function.
    rewrite (lookup_in_scan _ _ _EASING_MAP_lower_NoDup).
    apply scan_lower_none in Hno. now rewrite Hno. }
  split; [exact Hcase|]. split; [exact Hkey|]. split; [exact Hnone|]. split.
  - intros name key func Hin Ha E. apply (Hkey name key func Hin).
    now rewrite (str_lower_ascii name Ha), (_EASING_MAP_lower key func Hin).
  - intros name Ha Hno. apply Hnone. intros key func Hin.
    rewrite (str_lower_ascii name Ha), (_EASING_MAP_lower key func Hin).
    now apply (Hno key func).
Qed.

End EasingRegistry.

(** ** Sorting of keyframes *)

Lemma insert_by_In {A : Type} (key : A -> Q) (x y : A) (l : list A) :
  In y (insert_by key x l) <-> y = x \/ In y l.
Proof.
  induction l as [|z l IH]; simpl.
  - intuition congruence.
  - destruct (key x <=? key z); simpl; [intuition congruence|].
    rewrite IH. intuition congruence.
Qed.

Lemma sorted_by_In {A : Type} (key : A -> Q) (y : A) (l : list A) :
  In y (sorted_by key l) <-> In y l.
Proof.
  induction l as [|x l IH]; simpl; [reflexivity|].
  rewrite insert_by_In, IH. intuition congruence.
Qed.

Lemma insert_by_sorted {A : Type} (key : A -> Q) (x : A) (l : list A) :
  StronglySorted (fun a b => key a <= key b) l ->
  StronglySorted (fun a b => key a <= key b) (insert_by key x l).
Proof.
  induction l as [|z l IH]; intros Hs; simpl.
  - constructor; constructor.
  - inversion Hs as [|? ? Hs' Hall]; subst.
    destruct (Qleb_spec (key x) (key z)) as [Hle|Hlt].
    + constructor; [exact Hs|]. constructor; [exact Hle|].
      apply List.Forall_forall. intros y Hy.
      rewrite List.Forall_forall in Hall. specialize (Hall y Hy). simpl in Hall. lra.
    + constructor; [now apply IH|].
      apply List.Forall_forall. intros y Hy. apply insert_by_In in Hy as [->|Hy].
      * lra.
      * rewrite List.Forall_forall in Hall. now apply Hall.
Qed.

Lemma sorted_by_sorted {A : Type} (key : A -> Q) (l : list A) :
  StronglySorted (fun a b => key a <= key b) (sorted_by key l).
Proof.
  induction l as [|x l IH]; simpl; [constructor|]. now apply insert_by_sorted.
Qed.


Lemma last_In {A : Type} (l : list A) (d : A) : l <> [] -> In (List.last l d) l.
Proof.
  induction l as [|x l IH]; [congruence|]. intros _.
  destruct l as [|y l]; [now left|]. right. apply IH. discriminate.
Qed.

(** ** The keyframe interpolator *)

(** What a successful construction has checked. *)
Lemma new_inv `{Python} (kfs : list Keyframe.t) (easing : string) (I : KeyframeInterpolator.t) :
  KeyframeInterpolator.new kfs easing = Ok I ->
  KeyframeInterpolator.keyframes I = sorted_by Keyframe.time kfs
  /\ KeyframeInterpolator.easing_func I = Easing.get_easing_function easing
  /\ exists first rest,
       KeyframeInterpolator.keyframes I = first :: rest
       /\ Keyframe.time first == 0
       /\ Keyframe.time (List.last (KeyframeInterpolator.keyframes I) first) == 1.
Proof.
  unfold KeyframeInterpolator.new, KeyframeInterpolator._validate_keyframes.
  cbn [KeyframeInterpolator.keyframes].
  destruct (sorted_by Keyframe.time kfs) as [|first rest] eqn:E; [discriminate|].
  destruct (Qeqb_spec (Keyframe.time first) 0) as [H0|]; [|discriminate].
  cbn [negb].
  destruct (Qeqb_spec (Keyframe.time (List.last (first :: rest) first)) 1) as [H1|];
    [|discriminate].
  cbn. intros [= <-]. cbn [KeyframeInterpolator.keyframes KeyframeInterpolator.easing_func].
  split; [reflexivity|]. split; [reflexivity|].
  exists first, rest. repeat split; assumption.
Qed.

Lemma find_bracket_none_below (eased_t : Q) (kfs : list Keyframe.t) :
  (forall kf, In kf kfs -> eased_t < Keyframe.time kf) ->
  KeyframeInterpolator.find_bracket eased_t kfs = None.
Proof.
  induction kfs as [|kf1 kfs IH]; intros Hall; [reflexivity|].
  destruct kfs as [|kf2 kfs]; [reflexivity|].
  cbn [KeyframeInterpolator.find_bracket].
  destruct (Qleb_spec (Keyframe.time kf1) eased_t) as [Hle|_].
  - specialize (Hall kf1 (or_introl eq_refl)). lra.
  - simpl. apply IH. intros kf Hin. apply Hall. now right.
Qed.

Lemma back_in_undershoots (t : Q) : 0 < t -> t <= 0.6 -> EasingFunction.back_in t < 0.
Proof.
  intros Hpos Hle. unfold EasingFunction.back_in.
  assert (Hsq : 0 < t * t) by (apply Qmult_lt_0_compat; assumption).
  assert (Hfac : 0 < 1.70158 - (1.70158 + 1) * t) by lra.
  pose proof (Qmult_lt_0_compat _ _ Hsq Hfac) as Hprod.
  cbv zeta.
  assert (E : (1.70158 + 1) * t * t * t - 1.70158 * t * t
              == - (t * t * (1.70158 - (1.70158 + 1) * t))) by ring.
  rewrite E. lra.
Qed.

(** An implementation of the builtins to run examples with: [float] of a
    string of decimal digits, and rational stand-ins for the functions of
    [math].  The examples use the polynomial curves only, whose values do not
    depend on the stand-ins; the theorems hold for every implementation. *)
Fixpoint digits_value (s : string) (acc : N) : option N :=
  match s with
  | EmptyString => Some acc
  | String c s' =>
      let n := N_of_ascii c in
      if ((48 <=? n) && (n <=? 57))%N
      then digits_value s' (10 * acc + (n - 48))%N
      else None
  end.

Definition float_of_digits (s : string) : option Q :=
  match s with
  | EmptyString => None
  | _ => option_map (fun n => inject_Z (Z.of_N n)) (digits_value s 0%N)
  end.

#[local] Instance example_python : Python := {|
  py_float := float_of_digits;
  math_pi := 3.14159;
  math_sin := fun x => x - x * x * x / 6;
  math_cos := fun x => 1 - x * x / 2;
  math_pow := fun b e => Qpower b (Qfloor e);
  str_lower := lower;
  str_lower_ascii := fun s _ => eq_refl
|}.

Lemma get_easing_function_case_insensitive_witness :
  Easing.get_easing_function "EASEINBACK" = Easing.get_easing_function "easeInBack"
  /\ Easing.get_easing_function "EaseOutBOUNCE" = EasingFunction.ease_out_bounce
  /\ Easing.get_easing_function "wobble" = EasingFunction.linear.
Proof.
  destruct get_easing_function_case_insensitive as (Hcase & _ & _ & Hkey & Hnone).
  split; [|split].
  - apply Hcase. reflexivity.
  - apply (Hkey _ "easeOutBounce"); [|reflexivity|reflexivity]. vm_compute. tauto.
  - apply Hnone; [reflexivity|].
    intros key func Hin. vm_compute in Hin.
    repeat (destruct Hin as [[= <- <-]|Hin]; [vm_compute; discriminate|]).
    destruct Hin.
Defined.

(** C10.  When the eased time is strictly negative the scan finds no pair
    (every keyframe time is at least the first one, which is 0), and
    [interpolate] returns the properties of the last keyframe, the one at
    time 1, not those of the first.  [easeInBack] has such values: it is
    negative on all of (0, 0.6]. *)
Theorem interpolate_negative_eased_returns_last `{Python}
    (kfs : list Keyframe.t) (easing : string) (I : KeyframeInterpolator.t) (t : Q) :
  KeyframeInterpolator.new kfs easing = Ok I ->
  EasingFunction.call (KeyframeInterpolator.easing_func I) (Qmax 0 (Qmin 1 t)) < 0 ->
  KeyframeInterpolator.find_bracket
    (EasingFunction.call (KeyframeInterpolator.easing_func I) (Qmax 0 (Qmin 1 t)))
    (KeyframeInterpolator.keyframes I) = None
  /\ (exists first rest,
        KeyframeInterpolator.keyframes I = first :: rest
        /\ Keyframe.time first == 0
        /\ Keyframe.time (List.last (first :: rest) first) == 1
        /\ KeyframeInterpolator.interpolate I t
           = Keyframe.properties (List.last (first :: rest) first))
  /\ (forall u, 0 < u -> u <= 0.6 ->
        EasingFunction.call EasingFunction.ease_in_back (Qmax 0 (Qmin 1 u)) < 0).
Proof.
  intros Hnew Hneg.
  destruct (new_inv _ _ _ Hnew) as (Hsorted & _ & first & rest & Hk & H0 & H1).
  assert (Hnone : KeyframeInterpolator.find_bracket
            (EasingFunction.call (KeyframeInterpolator.easing_func I) (Qmax 0 (Qmin 1 t)))
            (KeyframeInterpolator.keyframes I) = None).
  { apply find_bracket_none_below. intros kf Hin.
    pose proof (sorted_by_sorted Keyframe.time kfs) as Hs.
    rewrite <- Hsorted, Hk in Hs. rewrite Hk in Hin.
    inversion Hs as [|? ? _ Hall]; subst.
    destruct Hin as [<-|Hin]; [lra|].
    rewrite List.Forall_forall in Hall. specialize (Hall kf Hin). simpl in Hall. lra. }
  split; [exact Hnone|]. split.
  - exists first, rest. rewrite Hk in H1. repeat split; try assumption.
    unfold KeyframeInterpolator.interpolate. rewrite Hnone, Hk. reflexivity.
  - intros u Hpos Hle. simpl.
    destruct (Qmin_cases 1 u) as [[Hc _]|[_ ->]]; [lra|].
    destruct (Qmax_cases 0 u) as [[Hc _]|[_ ->]]; [lra|].
    now apply back_in_undershoots.
Qed.

Definition fade_in_keyframes : list Keyframe.t :=
  [ Keyframe.mk 0 {[ "opacity" := VNum 0 ]};
    Keyframe.mk 1 {[ "opacity" := VNum 1 ]} ].

Definition fade_in_back : KeyframeInterpolator.t :=
  KeyframeInterpolator.mk fade_in_keyframes EasingFunction.ease_in_back.

Lemma interpolate_negative_eased_returns_last_witness :
  KeyframeInterpolator.interpolate fade_in_back 0.1 = {[ "opacity" := VNum 1 ]}.
Proof.
  destruct (interpolate_negative_eased_returns_last
              fade_in_keyframes "easeInBack" fade_in_back 0.1)
    as (_ & (first & rest & Hk & _ & _ & Hi) & _).
  - reflexivity.
  - vm_compute. reflexivity.
  - rewrite Hi. injection Hk as <- <-. reflexivity.
Defined.

(** ** Interpolation at the ends of the range *)

(** The entry [o] of the neighbouring keyframe leaves the value [v] as it
    is at either end of the range: the key is missing there, or holds
    [None], or one of the two values is a string. *)
Definition settles (v : value) (o : option value) : Prop :=
  match o with
  | None => True
  | Some v' => is_none v' = true \/ (is_str v || is_str v') = true
  end.

Lemma Qltb_half_0 (t : Q) : t == 0 -> (0.5 <? t) = false.
Proof. intros Ht. destruct (Qltb_spec 0.5 t); [lra|reflexivity]. Qed.

Lemma Qltb_half_1 (t : Q) : t == 1 -> (0.5 <? t) = true.
Proof. intros Ht. destruct (Qltb_spec 0.5 t); [reflexivity|lra]. Qed.

Lemma interpolate_value_str_at_0 (v1 v2 : value) (t : Q) :
  (is_str v1 || is_str v2) = true -> t == 0 ->
  KeyframeInterpolator._interpolate_value v1 v2 t = v1.
Proof.
  intros Hs Ht.
  destruct v1, v2; cbn in Hs |- *; try discriminate Hs;
    now rewrite ?(Qltb_half_0 t Ht).
Qed.

Lemma interpolate_value_str_at_1 (v1 v2 : value) (t : Q) :
  (is_str v1 || is_str v2) = true -> t == 1 ->
  KeyframeInterpolator._interpolate_value v1 v2 t = v2.
Proof.
  intros Hs Ht.
  destruct v1, v2; cbn in Hs |- *; try discriminate Hs;
    now rewrite ?(Qltb_half_1 t Ht).
Qed.

Lemma interpolate_value_numbers (v1 v2 : value) (a b t : Q) :
  as_number v1 = Some a -> as_number v2 = Some b ->
  KeyframeInterpolator._interpolate_value v1 v2 t = VNum (a + (b - a) * t).
Proof.
  intros Ha Hb.
  destruct v1; try discriminate Ha; destruct v2; try discriminate Hb;
    cbn in Ha, Hb |- *; injection Ha as <-; injection Hb as <-; reflexivity.
Qed.

Lemma interpolate_properties_lookup (p1 p2 : gmap string value) (t : Q) (key : string) :
  KeyframeInterpolator._interpolate_properties p1 p2 t !! key
  = KeyframeInterpolator.interpolate_entry t (p1 !! key) (p2 !! key).
Proof.
  unfold KeyframeInterpolator._interpolate_properties. rewrite lookup_merge.
  destruct (p1 !! key), (p2 !! key); reflexivity.
Qed.

Lemma interpolate_properties_left_missing (p1 p2 : gmap string value) (t : Q)
    (key : string) :
  p1 !! key = None ->
  KeyframeInterpolator._interpolate_properties p1 p2 t !! key = p2 !! key.
Proof.
  intros H1. rewrite interpolate_properties_lookup, H1.
  destruct (p2 !! key); reflexivity.
Qed.

Lemma interpolate_properties_right_missing (p1 p2 : gmap string value) (t : Q)
    (key : string) :
  p2 !! key = None ->
  KeyframeInterpolator._interpolate_properties p1 p2 t !! key = p1 !! key.
Proof.
  intros H2. rewrite interpolate_properties_lookup, H2.
  destruct (p1 !! key) as [[]|]; reflexivity.
Qed.

Lemma interpolate_properties_keeps_left (p1 p2 : gmap string value) (t : Q)
    (key : string) (v1 : value) :
  t == 0 ->
  p1 !! key = Some v1 -> is_none v1 = false -> settles v1 (p2 !! key) ->
  KeyframeInterpolator._interpolate_properties p1 p2 t !! key = Some v1.
Proof.
  intros Ht H1 Hn Hb. rewrite interpolate_properties_lookup, H1.
  unfold settles in Hb. destruct (p2 !! key) as [v2|]; simpl; rewrite Hn;
    [|reflexivity].
  destruct (is_none v2) eqn:En; [reflexivity|].
  destruct Hb as [Hb|Hb]; [congruence|].
  now rewrite (interpolate_value_str_at_0 _ _ _ Hb Ht).
Qed.

Lemma interpolate_properties_keeps_right (p1 p2 : gmap string value) (t : Q)
    (key : string) (v2 : value) :
  t == 1 ->
  p2 !! key = Some v2 -> is_none v2 = false -> settles v2 (p1 !! key) ->
  KeyframeInterpolator._interpolate_properties p1 p2 t !! key = Some v2.
Proof.
  intros Ht H2 Hn Hb. rewrite interpolate_properties_lookup, H2.
  unfold settles in Hb. destruct (p1 !! key) as [v1|]; simpl; [|reflexivity].
  destruct (is_none v1) eqn:En; [reflexivity|]. rewrite Hn.
  destruct Hb as [Hb|Hb]; [congruence|].
  rewrite orb_comm in Hb. now rewrite (interpolate_value_str_at_1 _ _ _ Hb Ht).
Qed.

Lemma interpolate_properties_numbers (p1 p2 : gmap string value) (t : Q)
    (key : string) (v1 v2 : value) (a b : Q) :
  p1 !! key = Some v1 -> p2 !! key = Some v2 ->
  as_number v1 = Some a -> as_number v2 = Some b ->
  KeyframeInterpolator._interpolate_properties p1 p2 t !! key
  = Some (VNum (a + (b - a) * t)).
Proof.
  intros H1 H2 Ha Hb. rewrite interpolate_properties_lookup, H1, H2. simpl.
  rewrite (interpolate_value_numbers _ _ _ _ t Ha Hb).
  destruct v1; try discriminate Ha; destruct v2; try discriminate Hb; reflexivity.
Qed.

Lemma find_bracket_cons (eased_t : Q) (kf1 kf2 : Keyframe.t) (rest : list Keyframe.t) :
  KeyframeInterpolator.find_bracket eased_t (kf1 :: kf2 :: rest)
  = if (Keyframe.time kf1 <=? eased_t) && (eased_t <=? Keyframe.time kf2) then
      Some (KeyframeInterpolator._interpolate_properties
              (Keyframe.properties kf1) (Keyframe.properties kf2)
              (if negb (Keyframe.time kf2 =? Keyframe.time kf1)
               then (eased_t - Keyframe.time kf1)
                    / (Keyframe.time kf2 - Keyframe.time kf1)
               else 0))
    else KeyframeInterpolator.find_bracket eased_t (kf2 :: rest).
Proof. reflexivity. Qed.

(** The scan passes over every pair whose second keyframe is before the
    eased time. *)
Lemma find_bracket_skip (eased_t : Q) (a b : Keyframe.t) (pre : list Keyframe.t) :
  (forall kf, In kf (pre ++ [a]) -> Keyframe.time kf < eased_t) ->
  KeyframeInterpolator.find_bracket eased_t (pre ++ [a; b])
  = KeyframeInterpolator.find_bracket eased_t [a; b].
Proof.
  induction pre as [|p pre IH]; intros Hlt; [reflexivity|].
  assert (Hnext : exists n rest, (pre ++ [a; b])%list = n :: rest
                                 /\ Keyframe.time n < eased_t).
  { destruct pre as [|n pre].
    - exists a, [b]. split; [reflexivity|]. apply Hlt. right. now left.
    - exists n, (pre ++ [a; b])%list. split; [reflexivity|].
      apply Hlt. right. now left. }
  destruct Hnext as (n & rest & En & Hn).
  change ((p :: pre) ++ [a; b])%list with (p :: (pre ++ [a; b]))%list.
  rewrite En, find_bracket_cons.
  destruct (Qleb_spec eased_t (Keyframe.time n)) as [Hle|_]; [lra|].
  rewrite andb_false_r, <- En. apply IH.
  intros kf Hin. apply Hlt. now right.
Qed.

Lemma StronglySorted_app_le {A : Type} (R : A -> A -> Prop) (l1 l2 : list A) (x : A) :
  StronglySorted R (l1 ++ x :: l2) -> forall y, In y l1 -> R y x.
Proof.
  induction l1 as [|z l1 IH]; intros Hs y Hy; [destruct Hy|].
  inversion Hs as [|? ? Hs' Hall]; subst. destruct Hy as [<-|Hy].
  - rewrite List.Forall_forall in Hall. apply Hall. apply in_or_app. right. now left.
  - now apply IH.
Qed.

(** C7, as the code has it.  With linear easing, [interpolate(0)] blends the
    first two keyframes with a factor equal to 0 and [interpolate(1)] the
    last two with a factor equal to 1 (when the last keyframe is the only
    one at time 1).  A key that the first (last) keyframe holds with a value
    other than [None] keeps that value when the neighbouring keyframe
    leaves the key out, holds [None] there, or one of the two values is a
    string; a key of the neighbouring keyframe alone is passed through, so
    the result need not equal the keyframe's table; a key that holds
    numbers [a] and [b] in the two keyframes gets [a + (b - a) * factor].
    For the keyframes {0: {opacity: 0}, 1: {opacity: 1}},
    [interpolate(0.5)] is {opacity: 0.5}. *)
Theorem interpolate_linear_endpoints `{Python}
    (kfs : list Keyframe.t) (I : KeyframeInterpolator.t) :
  KeyframeInterpolator.new kfs "linear" = Ok I ->
  (exists first second rest t0,
     KeyframeInterpolator.keyframes I = first :: second :: rest
     /\ t0 == 0
     /\ KeyframeInterpolator.interpolate I 0
        = KeyframeInterpolator._interpolate_properties
            (Keyframe.properties first) (Keyframe.properties second) t0
     /\ (forall key v,
           Keyframe.properties first !! key = Some v -> is_none v = false ->
           settles v (Keyframe.properties second !! key) ->
           KeyframeInterpolator.interpolate I 0 !! key = Some v)
     /\ (forall key,
           Keyframe.properties first !! key = None ->
           KeyframeInterpolator.interpolate I 0 !! key
           = Keyframe.properties second !! key)
     /\ (forall key v1 v2 a b,
           Keyframe.properties first !! key = Some v1 ->
           Keyframe.properties second !! key = Some v2 ->
           as_number v1 = Some a -> as_number v2 = Some b ->
           KeyframeInterpolator.interpolate I 0 !! key
           = Some (VNum (a + (b - a) * t0))))
  /\ (forall pre prev last_kf,
        KeyframeInterpolator.keyframes I = (pre ++ [prev; last_kf])%list ->
        Keyframe.time prev < 1 ->
        exists t1,
          t1 == 1
          /\ KeyframeInterpolator.interpolate I 1
             = KeyframeInterpolator._interpolate_properties
                 (Keyframe.properties prev) (Keyframe.properties last_kf) t1
          /\ (forall key v,
                Keyframe.properties last_kf !! key = Some v -> is_none v = false ->
                settles v (Keyframe.properties prev !! key) ->
                KeyframeInterpolator.interpolate I 1 !! key = Some v)
          /\ (forall key,
                Keyframe.properties last_kf !! key = None ->
                KeyframeInterpolator.interpolate I 1 !! key
                = Keyframe.properties prev !! key)
          /\ (forall key v1 v2 a b,
                Keyframe.properties prev !! key = Some v1 ->
                Keyframe.properties last_kf !! key = Some v2 ->
                as_number v1 = Some a -> as_number v2 = Some b ->
                KeyframeInterpolator.interpolate I 1 !! key
                = Some (VNum (a + (b - a) * t1))))
  /\ (forall I0,
        KeyframeInterpolator.new fade_in_keyframes "linear" = Ok I0 ->
        exists q, KeyframeInterpolator.interpolate I0 0.5 = {[ "opacity" := VNum q ]}
                  /\ q == 0.5).
Proof.
  intros Hnew.
  destruct (new_inv _ _ _ Hnew) as (Hsorted & Hfunc & first & rest & Hk & H0 & H1).
  change (Easing.get_easing_function "linear") with EasingFunction.linear in Hfunc.
  pose proof (sorted_by_sorted Keyframe.time kfs) as Hs. rewrite <- Hsorted in Hs.
  split; [|split].
  - destruct rest as [|second rest].
    { rewrite Hk in H1. simpl in H1. rewrite H0 in H1. discriminate H1. }
    assert (Hle : Keyframe.time first <= Keyframe.time second).
    { rewrite Hk in Hs. inversion Hs as [|? ? _ Hall]; subst.
      now inversion Hall. }
    assert (Hi : exists t0, t0 == 0 /\ KeyframeInterpolator.interpolate I 0
                 = KeyframeInterpolator._interpolate_properties
                     (Keyframe.properties first) (Keyframe.properties second) t0).
    { unfold KeyframeInterpolator.interpolate. rewrite Hfunc, Hk.
      cbn [EasingFunction.call]. change (Qmax 0 (Qmin 1 0)) with 0.
      rewrite find_bracket_cons.
      destruct (Qleb_spec (Keyframe.time first) 0); [|lra].
      destruct (Qleb_spec 0 (Keyframe.time second)); [|lra].
      cbn [andb]. eexists. split; [|reflexivity].
      destruct (negb _); [|reflexivity].
      assert (E : 0 - Keyframe.time first == 0) by lra.
      unfold Qdiv. rewrite E. ring. }
    destruct Hi as (t0 & Ht0 & Hi).
    exists first, second, rest, t0. split; [exact Hk|]. split; [exact Ht0|].
    split; [exact Hi|]. rewrite Hi. split; [|split].
    + intros key v Hv Hn Hb. now apply interpolate_properties_keeps_left.
    + intros key Hv. now apply interpolate_properties_left_missing.
    + intros key v1 v2 a b Hv1 Hv2 Ha Hb.
      now apply (interpolate_properties_numbers _ _ _ _ v1 v2).
  - intros pre prev last_kf Hpre Hprev.
    assert (Hlast : Keyframe.time last_kf == 1).
    { rewrite Hpre in H1.
      change (pre ++ [prev; last_kf])%list with (pre ++ [prev] ++ [last_kf])%list in H1.
      rewrite app_assoc, last_last in H1. exact H1. }
    assert (Hbefore : forall kf, In kf (pre ++ [prev]) -> Keyframe.time kf < 1).
    { intros kf Hin. apply in_app_or in Hin as [Hin|[<-|[]]]; [|exact Hprev].
      rewrite Hpre in Hs.
      pose proof (StronglySorted_app_le _ _ _ _ Hs kf Hin) as Hle. simpl in Hle. lra. }
    assert (Hi : exists t1, t1 == 1 /\ KeyframeInterpolator.interpolate I 1
                 = KeyframeInterpolator._interpolate_properties
                     (Keyframe.properties prev) (Keyframe.properties last_kf) t1).
    { unfold KeyframeInterpolator.interpolate. rewrite Hfunc, Hpre.
      cbn [EasingFunction.call]. change (Qmax 0 (Qmin 1 1)) with 1.
      rewrite (find_bracket_skip 1 prev last_kf pre Hbefore), find_bracket_cons.
      destruct (Qleb_spec (Keyframe.time prev) 1); [|lra].
      destruct (Qleb_spec 1 (Keyframe.time last_kf)); [|lra].
      cbn [andb]. eexists. split; [|reflexivity].
      destruct (Qeqb_spec (Keyframe.time last_kf) (Keyframe.time prev)); [lra|].
      cbn [negb]. rewrite Hlast. field. lra. }
    destruct Hi as (t1 & Ht1 & Hi). exists t1. split; [exact Ht1|].
    split; [exact Hi|]. rewrite Hi. split; [|split].
    + intros key v Hv Hn Hb. now apply interpolate_properties_keeps_right.
    + intros key Hv. now apply interpolate_properties_right_missing.
    + intros key v1 v2 a b Hv1 Hv2 Ha Hb.
      now apply (interpolate_properties_numbers _ _ _ _ v1 v2).
  - intros I0 HI0. vm_compute in HI0. injection HI0 as <-.
    exists (0 + (1 - 0) * ((0.5 - 0) / (1 - 0))). split; [|reflexivity].
    vm_compute. reflexivity.
Qed.

Definition fade_in_linear : KeyframeInterpolator.t :=
  KeyframeInterpolator.mk fade_in_keyframes EasingFunction.linear.

(** A caption that changes its colour name while it fades in. *)
Definition recolour_keyframes : list Keyframe.t :=
  [ Keyframe.mk 0 (<[ "color" := VStr "#FF0000" ]> {[ "opacity" := VNum 0 ]});
    Keyframe.mk 1 (<[ "color" := VStr "#00FF00" ]> {[ "opacity" := VNum 1 ]}) ].

Definition recolour_linear : KeyframeInterpolator.t :=
  KeyframeInterpolator.mk recolour_keyframes EasingFunction.linear.

Lemma interpolate_linear_endpoints_witness :
  KeyframeInterpolator.interpolate recolour_linear 0 !! "color" = Some (VStr "#FF0000")
  /\ (exists q, KeyframeInterpolator.interpolate fade_in_linear 0.5
                = {[ "opacity" := VNum q ]} /\ q == 0.5).
Proof.
  destruct (interpolate_linear_endpoints recolour_keyframes recolour_linear eq_refl)
    as ((first & second & rest & t0 & Hk & _ & _ & Hkeep & _) & _ & Hhalf).
  split.
  - injection Hk as <- <- <-. apply Hkeep; [reflexivity|reflexivity|].
    right. reflexivity.
  - apply Hhalf. reflexivity.
Defined.

(** A terminal keyframe that defines a key the initial keyframe lacks. *)
Definition grow_in_keyframes : list Keyframe.t :=
  [ Keyframe.mk 0 {[ "opacity" := VNum 0 ]};
    Keyframe.mk 1 (<[ "scale" := VNum 2 ]> {[ "opacity" := VNum 1 ]}) ].

Definition grow_in_linear : KeyframeInterpolator.t :=
  KeyframeInterpolator.mk grow_in_keyframes EasingFunction.linear.

(** C7 as stated fails: [interpolate(0)] is not the first keyframe's table,
    it also holds the key [scale] that only the second keyframe defines. *)
Lemma interpolate_start_extra_key_counterexample :
  KeyframeInterpolator.new grow_in_keyframes "linear" = Ok grow_in_linear
  /\ head (KeyframeInterpolator.keyframes grow_in_linear)
     = Some (Keyframe.mk 0 {[ "opacity" := VNum 0 ]})
  /\ KeyframeInterpolator.interpolate grow_in_linear 0 !! "scale" = Some (VNum 2)
  /\ ({[ "opacity" := VNum 0 ]} : gmap string value) !! "scale" = None.
Proof.
  split; [reflexivity|]. split; [reflexivity|]. split; vm_compute; reflexivity.
Qed.

(** ** The timeline compiler *)

(** A word spoken over [0, 1] with an animation of half a second that grows
    the word to twice its size. *)
Definition grow_animation : Animation.t :=
  Animation.mk "word"
    [ ("0%", {[ "scale" := VNum 0 ]}); ("100%", {[ "scale" := VNum 2 ]}) ]
    0.5 "linear" 0 None.

Definition one_word_transcript : Transcript.t :=
  Transcript.mk
    [ Segment.mk "hello" 0 1 [ Word.mk "hello" 0 1 None ] None None ]
    1 None None.

Definition grow_styles : StyleConfig.t :=
  StyleConfig.mk "Arial" 72 [1920; 1080]%Z 8 (0, 0, 0, 255)%Z [grow_animation] None
    None None None VNone None None None None.

Definition default_engine : MotionTypographyEngine.t :=
  MotionTypographyEngine.mk [1920; 1080]%Z 60.

(** Once an animation's progress is 1 the loop body does nothing for it. *)
Lemma apply_animation_finished `{Python} (current_time word_start : Q)
    (element : gmap string value) (anim : Animation.t) :
  1 <= MotionTypographyEngine.anim_progress anim current_time word_start ->
  MotionTypographyEngine.apply_animation current_time word_start element anim
  = Ok element.
Proof.
  intros Hp. unfold MotionTypographyEngine.apply_animation.
  destruct (String.eqb _ _); [|reflexivity].
  destruct (Qltb_spec (MotionTypographyEngine.anim_progress anim current_time word_start) 1);
    [lra|reflexivity].
Qed.

(** C1 fails on the code.  Half a second into the word the animation's
    progress is 1; the frame's element has [scale] 1, the default, while
    the terminal keyframe has [scale] 2; one frame earlier the element was
    at 1.5, on its way to 2. *)
Theorem compile_drops_terminal_keyframe :
  exists (engine : MotionTypographyEngine.t) (timeline : Timeline.t)
         (before at_end : Frame.t) (e_before e_end : gmap string value),
    MotionTypographyEngine.compile default_engine one_word_transcript grow_styles
    = Ok (engine, timeline)
    /\ Timeline.frames timeline !! 3%nat = Some before
    /\ Timeline.frames timeline !! 4%nat = Some at_end
    /\ Frame.timestamp at_end == 0.5
    /\ MotionTypographyEngine.anim_progress grow_animation (Frame.timestamp at_end) 0 == 1
    /\ Frame.elements before = [e_before]
    /\ Frame.elements at_end = [e_end]
    /\ (exists q, e_before !! "scale" = Some (VNum q) /\ q == 1.5)
    /\ e_end !! "scale" = Some (VNum 1).
Proof.
  do 6 eexists. split; [vm_compute; reflexivity|].
  split; [reflexivity|]. split; [reflexivity|].
  split; [reflexivity|]. split; [reflexivity|].
  split; [reflexivity|]. split; [reflexivity|].
  split; [|vm_compute; reflexivity].
  eexists. split; [vm_compute; reflexivity|reflexivity].
Qed.


Lemma mapM_lookup {A B : Type} (f : A -> result B) (l : list A) : forall l',
  mapM f l = Ok l' ->
  length l' = length l
  /\ forall i y, l' !! i = Some y -> exists x, l !! i = Some x /\ f x = Ok y.
Proof.
  induction l as [|x l IH]; intros l' Hm; simpl in Hm.
  - injection Hm as <-. split; [reflexivity|]. intros i y Hy. destruct i; discriminate.
  - destruct (f x) as [y0|] eqn:Ef; [|discriminate]. cbn in Hm.
    destruct (mapM f l) as [ys|] eqn:Em; [|discriminate]. cbn in Hm.
    injection Hm as <-. destruct (IH ys eq_refl) as [Hlen Hlook]. split.
    + simpl. now rewrite Hlen.
    + intros [|i] y Hy; simpl in Hy.
      * injection Hy as <-. exists x. now split.
      * now apply Hlook.
Qed.

(** ** Loops that may raise *)

Lemma foldM_raise_inv {A S : Type} (body : S -> A -> result S) (l : list A) :
  forall acc e, foldM body l acc = Raise e ->
  exists x acc', In x l /\ body acc' x = Raise e.
Proof.
  induction l as [|x l IH]; intros acc e Hf; simpl in Hf; [discriminate|].
  destruct (body acc x) as [acc1|e1] eqn:Eb; cbn in Hf.
  - destruct (IH _ _ Hf) as (y & acc' & Hin & Hb). exists y, acc'. split; [now right|exact Hb].
  - injection Hf as <-. exists x, acc. split; [now left|exact Eb].
Qed.




Lemma mapM_raise_inv {A B : Type} (f : A -> result B) (l : list A) (e : exn) :
  mapM f l = Raise e -> exists x, In x l /\ f x = Raise e.
Proof.
  induction l as [|x l IH]; simpl; [discriminate|].
  destruct (f x) as [y|e1] eqn:Ef; cbn.
  - destruct (mapM f l) as [ys|e2]; cbn; [discriminate|].
    intros [= <-]. destruct (IH eq_refl) as (z & Hz & Hfz). exists z. split; [now right|exact Hfz].
  - intros [= <-]. exists x. split; [now left|exact Ef].
Qed.

(** ** Construction of an animation's interpolator *)

Section Construction.
Context `{Python}.




Lemma keyframe_of_item_inv (item : string * gmap string value) (kf : Keyframe.t) :
  Animation.keyframe_of_item item = Ok kf ->
  exists p, py_float (rstrip "%" (fst item)) = Some p
            /\ Keyframe.time kf = p / 100.
Proof.
  unfold Animation.keyframe_of_item, Keyframe.make.
  destruct (py_float _) as [p|]; [|discriminate].
  destruct (negb _); [discriminate|]. intros [= <-]. now exists p.
Qed.


Lemma get_keyframes_sorted (anim : Animation.t) (kfs : list Keyframe.t) :
  Animation.get_keyframes anim = Ok kfs ->
  StronglySorted (fun a b => Keyframe.time a <= Keyframe.time b) kfs.
Proof.
  unfold Animation.get_keyframes.
  destruct (mapM _ _) as [items|]; [|discriminate]. cbn.
  intros [= <-]. apply sorted_by_sorted.
Qed.

Lemma get_keyframes_raises (anim : Animation.t) (e : exn) :
  Animation.get_keyframes anim = Raise e -> exists msg, e = ValueError msg.
Proof.
  unfold Animation.get_keyframes.
  destruct (mapM _ _) as [items|e1] eqn:Em; cbn; [discriminate|].
  intros [= <-]. destruct (mapM_raise_inv _ _ _ Em) as (item & _ & Hk).
  unfold Animation.keyframe_of_item, Keyframe.make in Hk.
  destruct (py_float _); [|injection Hk as <-; eauto].
  destruct (negb _); [injection Hk as <-; eauto|discriminate].
Qed.

Lemma new_raises (kfs : list Keyframe.t) (easing : string) (e : exn) :
  KeyframeInterpolator.new kfs easing = Raise e -> exists msg, e = ValueError msg.
Proof.
  unfold KeyframeInterpolator.new, KeyframeInterpolator._validate_keyframes.
  cbn [KeyframeInterpolator.keyframes].
  destruct (sorted_by Keyframe.time kfs) as [|first rest]; cbn.
  - intros [= <-]. eauto.
  - destruct (negb (Keyframe.time first =? 0)); cbn; [intros [= <-]; eauto|].
    destruct (negb _); cbn; [intros [= <-]; eauto|discriminate].
Qed.



End Construction.

(** ** Elements of a frame and the animations that reach them *)

Section Elements.
Context `{Python}.


(** The time of frame [k] in [compile]. *)
Definition frame_time (st : StyleConfig.t) (k : nat) : Q :=
  inject_Z (Z.of_nat k) * (1 / inject_Z (StyleConfig.fps st)).









(** [compile] after the two validations: the engine takes the resolution
    and the frame rate of the styles, and the frames are built in order. *)
Lemma compile_unfold (eng : MotionTypographyEngine.t) (tr tr' : Transcript.t)
    (st : StyleConfig.t) :
  Validator.validate_transcript tr = Ok tr' ->
  StyleValidator.validate_styles st = Ok tt ->
  let eng1 := MotionTypographyEngine.mk (StyleConfig.resolution st) (StyleConfig.fps st) in
  (exists w h, StyleConfig.resolution st = [w; h])
  /\ MotionTypographyEngine.compile eng tr st
     = (frames ← mapM (fun frame_idx : nat =>
                         elements ← MotionTypographyEngine._get_elements_at_time
                                      eng1 tr' st (frame_time st frame_idx);
                         Ok (Frame.mk (frame_time st frame_idx) elements))
                      (seq 0 (Z.to_nat
                                (py_int (Transcript.duration tr'
                                         * inject_Z (StyleConfig.fps st)) + 1)));
        Ok (eng1,
            Timeline.mk frames (Transcript.duration tr') (StyleConfig.fps st)
              (StyleConfig.resolution st) (Some st))).
Proof.
  intros Ev Es eng1.
  assert (Hst : (0 < StyleConfig.fps st)%Z
                /\ exists w h, StyleConfig.resolution st = [w; h]).
  { unfold StyleValidator.validate_styles in Es.
    destruct (Z.leb_spec (StyleConfig.fps st) 0); [discriminate|].
    destruct (Z.leb_spec (StyleConfig.font_size st) 0); [discriminate|].
    split; [assumption|].
    destruct (StyleConfig.resolution st) as [|w [|h [|]]]; try discriminate.
    now exists w, h. }
  destruct Hst as (Hfps & w & h & Hres). split; [now exists w, h|].
  unfold MotionTypographyEngine.compile. rewrite Ev, Es. cbn [mbind result_bind].
  subst eng1. rewrite Hres.
  destruct (Z.eqb_spec (StyleConfig.fps st) 0) as [|_]; [lia|].
  reflexivity.
Qed.

End Elements.

(** * Further properties of the validator *)

Lemma omap_validate_segment_length (l : list Segment.t) :
  length (omap Validator.validate_segment l) = length (List.filter has_words l).
Proof.
  symmetry. eapply Forall2_length. apply omap_validate_segment.
Qed.

Lemma filter_has_words_nil (l : list Segment.t) :
  List.filter has_words l = [] <-> forall s, In s l -> Segment.words s = [].
Proof.
  induction l as [|s l IH]; simpl.
  - split; [intros _ s []|reflexivity].
  - unfold has_words at 1. destruct (Segment.words s) eqn:E.
    + rewrite IH. split.
      * intros Hl s' [<-|Hin]; [exact E|now apply Hl].
      * intros Hl s' Hin. apply Hl. now right.
    + split; [discriminate|]. intros Hl.
      specialize (Hl s (or_introl eq_refl)). congruence.
Qed.

(** [validate_transcript] raises exactly when no segment has a word (an
    empty segment list included), and then it raises [ValidationError]. *)
Theorem validate_transcript_raises_iff (tr : Transcript.t) :
  ((exists tr', Validator.validate_transcript tr = Ok tr')
   <-> exists s, In s (Transcript.segments tr) /\ Segment.words s <> [])
  /\ ((exists msg, Validator.validate_transcript tr = Raise (ValidationError msg))
      <-> forall s, In s (Transcript.segments tr) -> Segment.words s = []).
Proof.
  assert (Hcases :
    (List.filter has_words (Transcript.segments tr) = []
     /\ exists msg, Validator.validate_transcript tr = Raise (ValidationError msg))
    \/ (List.filter has_words (Transcript.segments tr) <> []
        /\ exists tr', Validator.validate_transcript tr = Ok tr')).
  { unfold Validator.validate_transcript.
    destruct (Transcript.segments tr) as [|s0 l0] eqn:Es; [left; split; eauto|].
    pose proof (omap_validate_segment_length (s0 :: l0)) as Hlen.
    destruct (omap Validator.validate_segment (s0 :: l0)) as [|s1 l1].
    - left. split; [|eauto]. now destruct (List.filter has_words (s0 :: l0)).
    - right. split; [|eauto]. destruct (List.filter has_words (s0 :: l0)); discriminate. }
  split; split.
  - intros [tr' Hok]. destruct Hcases as [[_ [msg Hr]]|[Hne _]]; [congruence|].
    destruct (List.filter has_words (Transcript.segments tr)) as [|s l] eqn:Ef;
      [congruence|].
    assert (Hin : In s (List.filter has_words (Transcript.segments tr)))
      by (rewrite Ef; now left).
    apply filter_In in Hin as [Hin Hw]. exists s. split; [exact Hin|].
    unfold has_words in Hw. destruct (Segment.words s); congruence.
  - intros (s & Hin & Hw). destruct Hcases as [[Hnil _]|[_ Hok]]; [|exact Hok].
    exfalso. apply Hw. now apply (proj1 (filter_has_words_nil _) Hnil).
  - intros [msg Hr]. destruct Hcases as [[Hnil _]|[_ [tr' Hok]]]; [|congruence].
    now apply filter_has_words_nil.
  - intros Hall. destruct Hcases as [[_ Hr]|[Hne _]]; [exact Hr|].
    exfalso. apply Hne. now apply filter_has_words_nil.
Qed.




(** A segment that needs no repair: a non-negative start, a range of
    positive length, at least one word, and every word of positive length
    inside the segment's bounds. *)
Definition well_timed (s : Segment.t) : Prop :=
  0 <= Segment.start s
  /\ Segment.start s < Segment.end_ s
  /\ Segment.words s <> []
  /\ forall w, In w (Segment.words s) ->
       Word.start w < Word.end_ w
       /\ Segment.start s <= Word.start w
       /\ Word.end_ w <= Segment.end_ s.

Lemma fix_words_well_timed (ws : list Word.t) (seg : Segment.t) :
  (forall w, In w ws ->
     Word.start w < Word.end_ w
     /\ Segment.start seg <= Word.start w
     /\ Word.end_ w <= Segment.end_ seg) ->
  Validator.fix_words seg ws = (seg, ws).
Proof.
  induction ws as [|w ws IH]; intros Hall; [reflexivity|].
  destruct (Hall w (or_introl eq_refl)) as (Hw & Hs & He).
  assert (Hfix : Validator.fix_word_range seg w = w).
  { unfold Validator.fix_word_range.
    destruct (Qltb_spec (Word.end_ w) (Word.start w)); [lra|].
    destruct (Qeqb_spec (Word.end_ w) (Word.start w)) as [Heq|]; [|reflexivity].
    rewrite Heq in Hw. exfalso. now apply (Qlt_irrefl (Word.start w)). }
  assert (Hexp : Validator.expand_to seg w = seg).
  { unfold Validator.expand_to.
    destruct (Qltb_spec (Word.start w) (Segment.start seg)); [lra|].
    destruct (Qltb_spec (Segment.end_ seg) (Word.end_ w)); [lra|reflexivity]. }
  rewrite fix_words_cons, Hfix, Hexp, IH; [reflexivity|].
  intros w' Hin. apply Hall. now right.
Qed.

Lemma validate_segment_well_timed (s : Segment.t) :
  well_timed s -> Validator.validate_segment s = Some s.
Proof.
  intros (H0 & Hpos & Hne & Hall). unfold Validator.validate_segment.
  assert (Hc : Validator.clamp_start s = s).
  { unfold Validator.clamp_start. destruct (Qltb_spec (Segment.start s) 0); [lra|reflexivity]. }
  rewrite Hc.
  assert (Hr : Validator.fix_range s = s).
  { unfold Validator.fix_range.
    destruct (Qleb_spec (Segment.end_ s) (Segment.start s)); [lra|reflexivity]. }
  rewrite Hr. destruct (Segment.words s) as [|w ws] eqn:Ew; [congruence|].
  rewrite (fix_words_well_timed (w :: ws) s) by exact Hall.
  rewrite <- Ew. now destruct s.
Qed.

Lemma omap_validate_well_timed (l : list Segment.t) :
  (forall s, In s l -> well_timed s) -> omap Validator.validate_segment l = l.
Proof.
  induction l as [|s l IH]; intros Hall; [reflexivity|].
  cbn [omap list_omap].
  rewrite (validate_segment_well_timed s) by (apply Hall; now left).
  rewrite IH; [reflexivity|]. intros s' Hin. apply Hall. now right.
Qed.

(** A transcript whose segments all need no repair is returned as it is:
    on such input [validate_transcript] changes nothing, so running it again
    changes nothing either. *)
Theorem validate_transcript_well_timed_fixpoint (tr : Transcript.t) :
  Transcript.segments tr <> [] ->
  (forall s, In s (Transcript.segments tr) -> well_timed s) ->
  Validator.validate_transcript tr = Ok tr.
Proof.
  intros Hne Hall. unfold Validator.validate_transcript.
  rewrite (omap_validate_well_timed _ Hall).
  destruct (Transcript.segments tr) eqn:Es; [congruence|].
  rewrite <- Es. now destruct tr.
Qed.

Lemma validate_transcript_well_timed_fixpoint_witness :
  Validator.validate_transcript one_word_transcript = Ok one_word_transcript.
Proof.
  apply validate_transcript_well_timed_fixpoint; [discriminate|].
  intros s [<-|[]]. unfold well_timed. simpl.
  split; [lra|]. split; [lra|]. split; [discriminate|].
  intros w [<-|[]]. simpl. lra.
Defined.

(** * Further properties of the style validator *)

(** What [validate_styles] asks of a style configuration. *)
Definition styles_ok (st : StyleConfig.t) : Prop :=
  (0 < StyleConfig.fps st)%Z
  /\ (0 < StyleConfig.font_size st)%Z
  /\ (exists w h, StyleConfig.resolution st = [w; h] /\ (0 < w)%Z /\ (0 < h)%Z)
  /\ forall anim, In anim (StyleConfig.animations st) ->
       0 < Animation.duration anim /\ Animation.keyframes anim <> [].

Lemma check_animation_ok (anim : Animation.t) :
  StyleValidator.check_animation anim = Ok tt
  <-> 0 < Animation.duration anim /\ Animation.keyframes anim <> [].
Proof.
  unfold StyleValidator.check_animation.
  destruct (Qleb_spec (Animation.duration anim) 0) as [Hle|Hlt].
  - split; [discriminate|]. intros [Hd _]. lra.
  - destruct (Animation.keyframes anim).
    + split; [discriminate|]. now intros [_ Hk].
    + split; [|reflexivity]. intros _. split; [exact Hlt|discriminate].
Qed.

Lemma check_animation_raises (anim : Animation.t) (e : exn) :
  StyleValidator.check_animation anim = Raise e -> exists msg, e = ValidationError msg.
Proof.
  unfold StyleValidator.check_animation.
  destruct (_ <=? 0); [intros [= <-]; eauto|].
  destruct (Animation.keyframes anim); [intros [= <-]; eauto|discriminate].
Qed.

Lemma check_animations_ok (l : list Animation.t) :
  foldM (fun _ anim => StyleValidator.check_animation anim) l tt = Ok tt
  <-> forall anim, In anim l ->
        0 < Animation.duration anim /\ Animation.keyframes anim <> [].
Proof.
  induction l as [|a l IH]; simpl.
  - split; [intros _ anim []|reflexivity].
  - destruct (StyleValidator.check_animation a) as [[]|e] eqn:Ea; cbn.
    + rewrite IH. apply check_animation_ok in Ea. split.
      * intros Hall anim [<-|Hin]; [exact Ea|now apply Hall].
      * intros Hall anim Hin. apply Hall. now right.
    + split; [discriminate|]. intros Hall.
      assert (Hok : StyleValidator.check_animation a = Ok tt)
        by (apply check_animation_ok, Hall; now left).
      congruence.
Qed.

Lemma check_animations_raises (l : list Animation.t) (e : exn) :
  foldM (fun _ anim => StyleValidator.check_animation anim) l tt = Raise e ->
  exists msg, e = ValidationError msg.
Proof.
  intros Hf. destruct (foldM_raise_inv _ _ _ _ Hf) as (anim & acc & _ & Hb).
  now apply check_animation_raises in Hb.
Qed.

(** [validate_styles] accepts exactly the configurations with a positive
    frame rate, a positive font size, a resolution of two positive numbers,
    and animations that each have a positive duration and at least one
    keyframe; every other configuration raises [ValidationError], and no
    other exception. *)
Theorem validate_styles_accepts_iff (st : StyleConfig.t) :
  (styles_ok st /\ StyleValidator.validate_styles st = Ok tt)
  \/ (~ styles_ok st
      /\ exists msg, StyleValidator.validate_styles st = Raise (ValidationError msg)).
Proof.
  unfold StyleValidator.validate_styles, styles_ok.
  destruct (Z.leb_spec (StyleConfig.fps st) 0) as [Hf|Hf].
  { right. split; [intros (H1 & _); lia|eauto]. }
  destruct (Z.leb_spec (StyleConfig.font_size st) 0) as [Hs|Hs].
  { right. split; [intros (_ & H2 & _); lia|eauto]. }
  destruct (StyleConfig.resolution st) as [|w [|h [|x r]]] eqn:Er;
    try (right; split; [intros (_ & _ & (w' & h' & Hr & _) & _); discriminate Hr|];
         cbn; rewrite ?orb_true_r; eauto; fail).
  cbn [length Nat.eqb negb orb existsb].
  destruct (Z.leb_spec w 0) as [Hw|Hw].
  { right. split; [|cbn; eauto].
    intros (_ & _ & (w' & h' & [= <- <-] & Hw' & _) & _). lia. }
  destruct (Z.leb_spec h 0) as [Hh|Hh].
  { right. split; [|cbn; eauto].
    intros (_ & _ & (w' & h' & [= <- <-] & _ & Hh') & _). lia. }
  cbn [orb].
  destruct (foldM _ (StyleConfig.animations st) tt) as [[]|e] eqn:Ea.
  - left. pose proof (proj1 (check_animations_ok _) Ea) as Hall.
    repeat split; try assumption.
    + exists w, h. repeat split; assumption.
    + now apply Hall.
    + now apply Hall.
  - right. split.
    + intros (_ & _ & _ & Hall).
      pose proof (proj2 (check_animations_ok _) Hall). congruence.
    + destruct (check_animations_raises _ _ Ea) as [msg ->]. eauto.
Qed.

(** * Further properties of the easing curves *)

(** The curves whose values at 0 and at 1 are fixed by the code without a
    call into [math] and without a rounded constant: the polynomial and
    bounce curves, [ease_in_out_back], whose constants cancel at both ends,
    and the curves that return at [t == 0] and [t == 1] before computing.
    ([ease_in_back] is left out: its value at 1 is the difference of the
    constants [c3 = c1 + 1] and [c1], which floating-point addition does
    not return as 1.) *)
Definition ends_without_math (f : EasingFunction.t) : bool :=
  match f with
  | EasingFunction.ease_in_sine | EasingFunction.ease_out_sine
  | EasingFunction.ease_in_out_sine
  | EasingFunction.ease_in_exponential | EasingFunction.ease_out_exponential
  | EasingFunction.ease_in_back | EasingFunction.ease_out_back => false
  | _ => true
  end.

(** The curves made of polynomial pieces that neither overshoot nor
    undershoot: linear, quad, cubic, quartic and bounce. *)
Definition within_unit (f : EasingFunction.t) : bool :=
  match f with
  | EasingFunction.linear
  | EasingFunction.ease_in_quad | EasingFunction.ease_out_quad
  | EasingFunction.ease_in_out_quad
  | EasingFunction.ease_in_cubic | EasingFunction.ease_out_cubic
  | EasingFunction.ease_in_out_cubic
  | EasingFunction.ease_in_quartic | EasingFunction.ease_out_quartic
  | EasingFunction.ease_in_out_quartic
  | EasingFunction.ease_in_bounce | EasingFunction.ease_out_bounce
  | EasingFunction.ease_in_out_bounce => true
  | _ => false
  end.

(** Every such curve starts at 0 and ends at 1. *)
Theorem easing_endpoints `{Python} (f : EasingFunction.t) :
  ends_without_math f = true ->
  EasingFunction.call f 0 == 0 /\ EasingFunction.call f 1 == 1.
Proof.
  destruct f; intros Hf; try discriminate Hf; split; vm_compute; reflexivity.
Qed.

Lemma easing_endpoints_witness :
  EasingFunction.call EasingFunction.ease_out_bounce 0 == 0
  /\ EasingFunction.call EasingFunction.ease_out_bounce 1 == 1.
Proof. apply easing_endpoints. reflexivity. Defined.

Lemma Qsq_bound (u r : Q) : - r <= u -> u <= r -> 0 <= u * u /\ u * u <= r * r.
Proof.
  intros Hl Hu.
  assert (H1 : 0 <= (r - u) * (r + u)) by (apply Qmult_le_0_compat; lra).
  split; [|lra].
  destruct (Qlt_le_dec u 0).
  - assert (H2 : 0 <= (- u) * (- u)) by (apply Qmult_le_0_compat; lra). lra.
  - apply Qmult_le_0_compat; lra.
Qed.

Lemma bounce_out_unit (t : Q) :
  0 <= t -> t <= 1 ->
  0 <= EasingFunction.bounce_out t /\ EasingFunction.bounce_out t <= 1.
Proof.
  intros H0 H1. unfold EasingFunction.bounce_out. cbv zeta.
  assert (E1 : 1 / 2.75 == 4 # 11) by reflexivity.
  assert (E2 : 2 / 2.75 == 8 # 11) by reflexivity.
  assert (E3 : 2.5 / 2.75 == 10 # 11) by reflexivity.
  assert (E4 : 1.5 / 2.75 == 6 # 11) by reflexivity.
  assert (E5 : 2.25 / 2.75 == 9 # 11) by reflexivity.
  assert (E6 : 2.625 / 2.75 == 21 # 22) by reflexivity.
  destruct (Qltb_spec t (1 / 2.75)) as [Ha|Ha].
  { destruct (Qsq_bound t (4 # 11)) as [Hs Hb]; [lra|lra|]. split; lra. }
  destruct (Qltb_spec t (2 / 2.75)) as [Hb|Hb].
  { rewrite E4. destruct (Qsq_bound (t - (6 # 11)) (2 # 11)) as [Hs Hq]; [lra|lra|].
    split; lra. }
  destruct (Qltb_spec t (2.5 / 2.75)) as [Hc|Hc].
  { rewrite E5. destruct (Qsq_bound (t - (9 # 11)) (1 # 11)) as [Hs Hq]; [lra|lra|].
    split; lra. }
  rewrite E6. destruct (Qsq_bound (t - (21 # 22)) (1 # 22)) as [Hs Hq]; [lra|lra|].
  split; lra.
Qed.

Lemma Qmult_le_mono (a b c d : Q) :
  0 <= a -> a <= b -> 0 <= c -> c <= d -> 0 <= a * c /\ a * c <= b * d.
Proof.
  intros Ha Hab Hc Hcd.
  assert (H1 : 0 <= a * c) by (apply Qmult_le_0_compat; lra).
  assert (H2 : 0 <= (b - a) * d) by (apply Qmult_le_0_compat; lra).
  assert (H3 : 0 <= a * (d - c)) by (apply Qmult_le_0_compat; lra).
  split; lra.
Qed.

(** Powers of a number of [0, r], as the curves write them. *)
Lemma Qpow_bound (u r : Q) :
  0 <= u -> u <= r ->
  (0 <= u * u /\ u * u <= r * r)
  /\ (0 <= u * u * u /\ u * u * u <= r * r * r)
  /\ (0 <= u * u * u * u /\ u * u * u * u <= r * r * r * r).
Proof.
  intros H0 Hr.
  destruct (Qmult_le_mono u r u r) as [H2 H2']; [lra|lra|lra|lra|].
  destruct (Qmult_le_mono (u * u) (r * r) u r) as [H3 H3']; [lra|lra|lra|lra|].
  destruct (Qmult_le_mono (u * u * u) (r * r * r) u r) as [H4 H4']; [lra|lra|lra|lra|].
  tauto.
Qed.

Lemma call_within_unit `{Python} (f : EasingFunction.t) (t : Q) :
  within_unit f = true -> 0 <= t -> t <= 1 ->
  0 <= EasingFunction.call f t /\ EasingFunction.call f t <= 1.
Proof.
  intros Hf H0 H1.
  destruct (Qpow_bound t 1 H0 H1) as ((Ht2 & Ht2') & (Ht3 & Ht3') & (Ht4 & Ht4')).
  destruct (Qpow_bound (1 - t) 1) as ((Hu2 & Hu2') & (Hu3 & Hu3') & (Hu4 & Hu4'));
    [lra|lra|].
  destruct f; try discriminate Hf; cbn [EasingFunction.call].
  - split; lra.
  - split; lra.
  - split; lra.
  - destruct (Qltb_spec t 0.5).
    + destruct (Qpow_bound t 0.5) as ((? & ?) & _); [lra|lra|]. split; lra.
    + destruct (Qpow_bound (1 - t) 0.5) as ((? & ?) & _); [lra|lra|]. split; lra.
  - split; lra.
  - split; lra.
  - destruct (Qltb_spec t 0.5).
    + destruct (Qpow_bound t 0.5) as (_ & (? & ?) & _); [lra|lra|]. split; lra.
    + destruct (Qpow_bound (1 - t) 0.5) as (_ & (? & ?) & _); [lra|lra|]. split; lra.
  - split; lra.
  - split; lra.
  - destruct (Qltb_spec t 0.5).
    + destruct (Qpow_bound t 0.5) as (_ & _ & (? & ?)); [lra|lra|]. split; lra.
    + destruct (Qpow_bound (1 - t) 0.5) as (_ & _ & (? & ?)); [lra|lra|]. split; lra.
  - unfold EasingFunction.bounce_in.
    destruct (bounce_out_unit (1 - t)); [lra|lra|]. split; lra.
  - now apply bounce_out_unit.
  - destruct (Qltb_spec t 0.5).
    + unfold EasingFunction.bounce_in.
      destruct (bounce_out_unit (1 - t * 2)); [lra|lra|].
      unfold Qdiv. change (/ 2) with (1 # 2). split; lra.
    + destruct (bounce_out_unit (t * 2 - 1)); [lra|lra|].
      unfold Qdiv. change (/ 2) with (1 # 2). split; lra.
Qed.

(** The linear, quad, cubic, quartic and bounce curves map [0, 1] into
    [0, 1]. *)
Theorem easing_within_unit `{Python} (f : EasingFunction.t) (t : Q) :
  within_unit f = true -> 0 <= t -> t <= 1 ->
  0 <= EasingFunction.call f t /\ EasingFunction.call f t <= 1.
Proof. apply call_within_unit. Qed.

Lemma easing_within_unit_witness :
  0 <= EasingFunction.call EasingFunction.ease_in_out_bounce 0.3
  /\ EasingFunction.call EasingFunction.ease_in_out_bounce 0.3 <= 1.
Proof. apply easing_within_unit; [reflexivity|lra|lra]. Defined.

(** * Further properties of the keyframe interpolator *)

Lemma last_default {A : Type} (l : list A) (d d' : A) :
  l <> [] -> List.last l d = List.last l d'.
Proof.
  induction l as [|x l IH]; [congruence|]. intros _.
  destruct l as [|y l]; [reflexivity|]. apply IH. discriminate.
Qed.

(** The scan finds a pair as soon as the eased time is between the first
    and the last keyframe time: the first pair of neighbours around it. *)
Lemma find_bracket_found (x : Q) (rest : list Keyframe.t) : forall kf0,
  rest <> [] ->
  Keyframe.time kf0 <= x ->
  x <= Keyframe.time (List.last (kf0 :: rest) kf0) ->
  exists pre kf1 kf2 post local_t,
    kf0 :: rest = (pre ++ kf1 :: kf2 :: post)%list
    /\ Keyframe.time kf1 <= x /\ x <= Keyframe.time kf2
    /\ 0 <= local_t /\ local_t <= 1
    /\ local_t * (Keyframe.time kf2 - Keyframe.time kf1) == x - Keyframe.time kf1
    /\ KeyframeInterpolator.find_bracket x (kf0 :: rest)
       = Some (KeyframeInterpolator._interpolate_properties
                 (Keyframe.properties kf1) (Keyframe.properties kf2) local_t).
Proof.
  induction rest as [|kf2 rest IH]; intros kf0 Hne Hlo Hhi; [congruence|].
  rewrite find_bracket_cons.
  destruct (Qleb_spec (Keyframe.time kf0) x) as [_|Hc]; [|lra].
  destruct (Qleb_spec x (Keyframe.time kf2)) as [Hle|Hgt]; cbn [andb].
  - exists [], kf0, kf2, rest.
    exists (if negb (Keyframe.time kf2 =? Keyframe.time kf0)
            then (x - Keyframe.time kf0) / (Keyframe.time kf2 - Keyframe.time kf0)
            else 0).
    split; [reflexivity|].
    split; [exact Hlo|]. split; [exact Hle|].
    destruct (Qeqb_spec (Keyframe.time kf2) (Keyframe.time kf0)) as [He|Hd]; cbn [negb].
    + split; [lra|]. split; [lra|]. split; [lra|reflexivity].
    + assert (Hpos : 0 < Keyframe.time kf2 - Keyframe.time kf0) by lra.
      split; [apply Qle_shift_div_l; [exact Hpos|lra]|].
      split; [apply Qle_shift_div_r; [exact Hpos|lra]|].
      split; [field; lra|reflexivity].
  - destruct rest as [|kf3 rest].
    { simpl in Hhi. lra. }
    destruct (IH kf2) as (pre & kf1 & kf2' & post & local_t & Hk & H1 & H2 & H3 & H4 & H5 & Hf).
    + discriminate.
    + lra.
    + change (List.last (kf0 :: kf2 :: kf3 :: rest) kf0)
        with (List.last (kf3 :: rest) kf0) in Hhi.
      change (List.last (kf2 :: kf3 :: rest) kf2) with (List.last (kf3 :: rest) kf2).
      now rewrite (last_default _ kf2 kf0).
    + exists (kf0 :: pre), kf1, kf2', post, local_t.
      split; [simpl; now rewrite Hk|]. tauto.
Qed.

Lemma clamp_unit (t : Q) : 0 <= Qmax 0 (Qmin 1 t) /\ Qmax 0 (Qmin 1 t) <= 1.
Proof.
  destruct (Qmin_cases 1 t) as [[? ->]|[? ->]];
    [destruct (Qmax_cases 0 1) as [[? ->]|[? ->]]
    |destruct (Qmax_cases 0 t) as [[? ->]|[? ->]]]; split; lra.
Qed.

Lemma new_two_keyframes `{Python} (kfs : list Keyframe.t) (easing : string)
    (I : KeyframeInterpolator.t) :
  KeyframeInterpolator.new kfs easing = Ok I ->
  exists first second rest,
    KeyframeInterpolator.keyframes I = first :: second :: rest
    /\ Keyframe.time first == 0
    /\ Keyframe.time (List.last (first :: second :: rest) first) == 1.
Proof.
  intros Hnew. destruct (new_inv _ _ _ Hnew) as (_ & _ & first & rest & Hk & H0 & H1).
  rewrite Hk in H1. destruct rest as [|second rest].
  - simpl in H1. rewrite H0 in H1. discriminate H1.
  - now exists first, second, rest.
Qed.

(** When the eased time is in [0, 1] the scan finds two neighbouring
    keyframes around it, and [interpolate] blends their tables with a
    factor of [0, 1]; the result has exactly the keys of the two tables. *)
Theorem interpolate_blends_neighbours `{Python}
    (kfs : list Keyframe.t) (easing : string) (I : KeyframeInterpolator.t) (t : Q) :
  KeyframeInterpolator.new kfs easing = Ok I ->
  0 <= EasingFunction.call (KeyframeInterpolator.easing_func I) (Qmax 0 (Qmin 1 t)) ->
  EasingFunction.call (KeyframeInterpolator.easing_func I) (Qmax 0 (Qmin 1 t)) <= 1 ->
  exists pre kf1 kf2 post local_t,
    KeyframeInterpolator.keyframes I = (pre ++ kf1 :: kf2 :: post)%list
    /\ Keyframe.time kf1
       <= EasingFunction.call (KeyframeInterpolator.easing_func I) (Qmax 0 (Qmin 1 t))
    /\ EasingFunction.call (KeyframeInterpolator.easing_func I) (Qmax 0 (Qmin 1 t))
       <= Keyframe.time kf2
    /\ 0 <= local_t /\ local_t <= 1
    /\ KeyframeInterpolator.interpolate I t
       = KeyframeInterpolator._interpolate_properties
           (Keyframe.properties kf1) (Keyframe.properties kf2) local_t
    /\ forall key,
         is_Some (KeyframeInterpolator.interpolate I t !! key)
         <-> is_Some (Keyframe.properties kf1 !! key)
             \/ is_Some (Keyframe.properties kf2 !! key).
Proof.
  intros Hnew Hlo Hhi.
  destruct (new_two_keyframes _ _ _ Hnew) as (first & second & rest & Hk & H0 & H1).
  set (eased := EasingFunction.call (KeyframeInterpolator.easing_func I)
                  (Qmax 0 (Qmin 1 t))) in *.
  destruct (find_bracket_found eased (second :: rest) first)
    as (pre & kf1 & kf2 & post & local_t & Hsplit & Hb1 & Hb2 & Hl0 & Hl1 & _ & Hf);
    [discriminate|lra|lra|].
  assert (Hi : KeyframeInterpolator.interpolate I t
               = KeyframeInterpolator._interpolate_properties
                   (Keyframe.properties kf1) (Keyframe.properties kf2) local_t).
  { unfold KeyframeInterpolator.interpolate. fold eased. now rewrite Hk, Hf. }
  exists pre, kf1, kf2, post, local_t.
  split; [now rewrite Hk|]. split; [exact Hb1|]. split; [exact Hb2|].
  split; [exact Hl0|]. split; [exact Hl1|]. split; [exact Hi|].
  intros key. rewrite Hi, interpolate_properties_lookup.
  unfold KeyframeInterpolator.interpolate_entry.
  destruct (Keyframe.properties kf1 !! key), (Keyframe.properties kf2 !! key);
    split; intros Hs; eauto; destruct Hs as [Hs|Hs]; inversion Hs; discriminate.
Qed.

Lemma interpolate_blends_neighbours_witness :
  exists local_t,
    0 <= local_t /\ local_t <= 1
    /\ KeyframeInterpolator.interpolate fade_in_linear 0.25
       = KeyframeInterpolator._interpolate_properties
           {[ "opacity" := VNum 0 ]} {[ "opacity" := VNum 1 ]} local_t.
Proof.
  destruct (interpolate_blends_neighbours fade_in_keyframes "linear" fade_in_linear 0.25)
    as (pre & kf1 & kf2 & post & local_t & Hk & _ & _ & Hl0 & Hl1 & Hi & _).
  - reflexivity.
  - vm_compute. discriminate.
  - vm_compute. discriminate.
  - unfold fade_in_linear, fade_in_keyframes in Hk.
    cbn [KeyframeInterpolator.keyframes] in Hk.
    exists local_t. split; [exact Hl0|]. split; [exact Hl1|].
    destruct pre as [|p0 [|p1 pre]]; cbn [app] in Hk.
    + injection Hk as <- <- <-. exact Hi.
    + injection Hk as _ _ Hk. discriminate Hk.
    + injection Hk as _ _ Hk. destruct pre; discriminate Hk.
Defined.

(** With one of the curves that stay inside [0, 1] the scan always finds a
    pair, for every argument: the statement after the loop is not reached. *)
Theorem interpolate_fallback_unreachable `{Python}
    (kfs : list Keyframe.t) (easing : string) (I : KeyframeInterpolator.t) (t : Q) :
  KeyframeInterpolator.new kfs easing = Ok I ->
  within_unit (KeyframeInterpolator.easing_func I) = true ->
  exists props,
    KeyframeInterpolator.find_bracket
      (EasingFunction.call (KeyframeInterpolator.easing_func I) (Qmax 0 (Qmin 1 t)))
      (KeyframeInterpolator.keyframes I) = Some props
    /\ KeyframeInterpolator.interpolate I t = props.
Proof.
  intros Hnew Hw.
  destruct (new_two_keyframes _ _ _ Hnew) as (first & second & rest & Hk & H0 & H1).
  destruct (clamp_unit t) as [Hc0 Hc1].
  destruct (call_within_unit _ _ Hw Hc0 Hc1) as [He0 He1].
  destruct (find_bracket_found
              (EasingFunction.call (KeyframeInterpolator.easing_func I)
                 (Qmax 0 (Qmin 1 t)))
              (second :: rest) first)
    as (pre & kf1 & kf2 & post & local_t & _ & _ & _ & _ & _ & _ & Hf);
    [discriminate|lra|lra|].
  eexists. split; [rewrite Hk; exact Hf|].
  unfold KeyframeInterpolator.interpolate. now rewrite Hk, Hf.
Qed.

Lemma interpolate_fallback_unreachable_witness :
  exists props,
    KeyframeInterpolator.find_bracket
      (EasingFunction.call EasingFunction.linear (Qmax 0 (Qmin 1 7)))
      fade_in_keyframes = Some props
    /\ KeyframeInterpolator.interpolate fade_in_linear 7 = props.
Proof.
  apply (interpolate_fallback_unreachable fade_in_keyframes "linear" fade_in_linear 7);
    reflexivity.
Defined.

(** [interpolate] clamps its argument: an argument below 0 gives the result
    at 0, an argument above 1 the result at 1. *)
Theorem interpolate_clamps `{Python} (I : KeyframeInterpolator.t) (t : Q) :
  KeyframeInterpolator.interpolate I t
  = KeyframeInterpolator.interpolate I (Qmax 0 (Qmin 1 t))
  /\ (t <= 0 -> KeyframeInterpolator.interpolate I t
                = KeyframeInterpolator.interpolate I 0)
  /\ (1 <= t -> KeyframeInterpolator.interpolate I t
                = KeyframeInterpolator.interpolate I 1).
Proof.
  unfold KeyframeInterpolator.interpolate.
  assert (Hidem : Qmax 0 (Qmin 1 (Qmax 0 (Qmin 1 t))) = Qmax 0 (Qmin 1 t)).
  { destruct (Qmin_cases 1 t) as [[? ->]|[? ->]].
    - reflexivity.
    - destruct (Qmax_cases 0 t) as [[? ->]|[? E]]; [reflexivity|]. rewrite E.
      destruct (Qmin_cases 1 t) as [[? ->]|[? ->]]; [lra|exact E]. }
  split; [now rewrite Hidem|]. split; intros Ht.
  - assert (E : Qmax 0 (Qmin 1 t) = 0).
    { destruct (Qmin_cases 1 t) as [[? ->]|[? ->]]; [lra|].
      destruct (Qmax_cases 0 t) as [[? ->]|[? ->]]; [reflexivity|lra]. }
    now rewrite E.
  - assert (E : Qmax 0 (Qmin 1 t) = 1).
    { destruct (Qmin_cases 1 t) as [[? ->]|[? ->]]; [reflexivity|lra]. }
    now rewrite E.
Qed.

Lemma interpolate_clamps_witness :
  KeyframeInterpolator.interpolate fade_in_linear (-3)
  = KeyframeInterpolator.interpolate fade_in_linear 0
  /\ KeyframeInterpolator.interpolate fade_in_linear 7
     = KeyframeInterpolator.interpolate fade_in_linear 1.
Proof.
  split.
  - apply (proj1 (proj2 (interpolate_clamps fade_in_linear (-3)))). lra.
  - apply (proj2 (proj2 (interpolate_clamps fade_in_linear 7))). lra.
Defined.

(** * Further properties of keyframe construction *)

Lemma insert_by_length {A : Type} (key : A -> Q) (x : A) (l : list A) :
  length (insert_by key x l) = S (length l).
Proof.
  induction l as [|y l IH]; simpl; [reflexivity|].
  destruct (key x <=? key y); simpl; [reflexivity|]. now rewrite IH.
Qed.

Lemma sorted_by_length {A : Type} (key : A -> Q) (l : list A) :
  length (sorted_by key l) = length l.
Proof.
  induction l as [|x l IH]; simpl; [reflexivity|]. now rewrite insert_by_length, IH.
Qed.

Lemma sorted_last_max {A : Type} (key : A -> Q) (l : list A) (d x : A) :
  StronglySorted (fun a b => key a <= key b) l -> In x l ->
  key x <= key (List.last l d).
Proof.
  induction l as [|y l IH]; intros Hs Hin; [destruct Hin|].
  inversion Hs as [|? ? Hs' Hall]; subst.
  destruct l as [|z l].
  - destruct Hin as [<-|[]]. simpl. lra.
  - change (List.last (y :: z :: l) d) with (List.last (z :: l) d).
    destruct Hin as [<-|Hin]; [|now apply IH].
    rewrite List.Forall_forall in Hall.
    apply (Hall (List.last (z :: l) d)). apply last_In. discriminate.
Qed.

Lemma mapM_length {A B : Type} (f : A -> result B) (l : list A) (l' : list B) :
  mapM f l = Ok l' -> length l' = length l.
Proof. intros Hm. now destruct (mapM_lookup f l l' Hm). Qed.

Lemma mapM_ok_all {A B : Type} (f : A -> result B) (l : list A) :
  (forall x, In x l -> exists y, f x = Ok y) -> exists l', mapM f l = Ok l'.
Proof.
  induction l as [|x l IH]; intros Hall; simpl; [eauto|].
  destruct (Hall x (or_introl eq_refl)) as [y ->]. cbn.
  destruct IH as [l' ->]; [intros z Hz; apply Hall; now right|]. cbn. eauto.
Qed.

Lemma insert_by_perm {A : Type} (key : A -> Q) (x : A) (l : list A) :
  Permutation (insert_by key x l) (x :: l).
Proof.
  induction l as [|y l IH]; simpl; [reflexivity|].
  destruct (key x <=? key y); [reflexivity|].
  rewrite IH. apply perm_swap.
Qed.

Lemma sorted_by_perm {A : Type} (key : A -> Q) (l : list A) :
  Permutation (sorted_by key l) l.
Proof.
  induction l as [|x l IH]; simpl; [reflexivity|].
  rewrite insert_by_perm. now constructor.
Qed.

Lemma mapM_Forall2 {A B : Type} (f : A -> result B) (l : list A) : forall l',
  mapM f l = Ok l' -> Forall2 (fun x y => f x = Ok y) l l'.
Proof.
  induction l as [|x l IH]; intros l' Hm; simpl in Hm.
  - injection Hm as <-. constructor.
  - destruct (f x) as [y|] eqn:Ef; [|discriminate]. cbn in Hm.
    destruct (mapM f l) as [ys|]; [|discriminate]. cbn in Hm.
    injection Hm as <-. constructor; [exact Ef|now apply IH].
Qed.

Section KeyframeConstruction.
Context `{Python}.

(** A key of the keyframes table that [get_keyframes] can convert: the
    text before the trailing percent signs reads as a number of [0, 100]. *)
Definition percent_key (key : string) : Prop :=
  exists p, py_float (rstrip "%" key) = Some p /\ 0 <= p / 100 /\ p / 100 <= 1.

Lemma keyframe_of_item_ok (item : string * gmap string value) :
  percent_key (fst item) <-> exists kf, Animation.keyframe_of_item item = Ok kf.
Proof.
  unfold percent_key, Animation.keyframe_of_item, Keyframe.make. split.
  - intros (p & -> & H0 & H1).
    destruct (Qleb_spec 0 (p / 100)); [|lra].
    destruct (Qleb_spec (p / 100) 1); [|lra]. cbn. eauto.
  - intros [kf Hk]. destruct (py_float _) as [p|]; [|discriminate].
    exists p. split; [reflexivity|].
    destruct (Qleb_spec 0 (p / 100)); [|discriminate].
    destruct (Qleb_spec (p / 100) 1); [|discriminate]. split; assumption.
Qed.

Lemma keyframe_of_item_fields (item : string * gmap string value) (kf : Keyframe.t) :
  Animation.keyframe_of_item item = Ok kf ->
  Keyframe.properties kf = snd item
  /\ 0 <= Keyframe.time kf /\ Keyframe.time kf <= 1.
Proof.
  unfold Animation.keyframe_of_item, Keyframe.make.
  destruct (py_float _) as [p|]; [|discriminate].
  destruct (Qleb_spec 0 (p / 100)); [|discriminate].
  destruct (Qleb_spec (p / 100) 1); [|discriminate].
  cbn. intros [= <-]. cbn. tauto.
Qed.

(** [get_keyframes] converts every entry of the table into one keyframe,
    with the entry's properties and the time its key reads as, a time of
    [0, 1]; the result is these keyframes, each once, ordered by time. *)
Theorem get_keyframes_sorted_complete (anim : Animation.t) (kfs : list Keyframe.t) :
  Animation.get_keyframes anim = Ok kfs ->
  StronglySorted (fun a b => Keyframe.time a <= Keyframe.time b) kfs
  /\ exists converted,
       Permutation converted kfs
       /\ Forall2 (fun entry kf =>
                     Keyframe.properties kf = snd entry
                     /\ 0 <= Keyframe.time kf /\ Keyframe.time kf <= 1
                     /\ exists p, py_float (rstrip "%" (fst entry)) = Some p
                                  /\ Keyframe.time kf = p / 100)
                  (Animation.keyframes anim) converted.
Proof.
  intros Hg. split; [now apply get_keyframes_sorted with (anim := anim)|].
  unfold Animation.get_keyframes in Hg.
  destruct (mapM _ _) as [items|] eqn:Em; [|discriminate]. cbn in Hg.
  injection Hg as <-. exists items. split; [symmetry; apply sorted_by_perm|].
  apply mapM_Forall2 in Em. induction Em as [|entry kf l l' Hk _ IH]; constructor.
  - destruct (keyframe_of_item_fields _ _ Hk) as (Hp & H0 & H1).
    destruct (keyframe_of_item_inv _ _ Hk) as (p & Hf & Ht).
    split; [exact Hp|]. split; [exact H0|]. split; [exact H1|]. now exists p.
  - exact IH.
Qed.

(** [get_keyframes] returns normally exactly when every key converts;
    otherwise it raises [ValueError]. *)
Theorem get_keyframes_accepts_iff (anim : Animation.t) :
  ((forall item, In item (Animation.keyframes anim) -> percent_key (fst item))
   /\ exists kfs, Animation.get_keyframes anim = Ok kfs)
  \/ (~ (forall item, In item (Animation.keyframes anim) -> percent_key (fst item))
      /\ exists msg, Animation.get_keyframes anim = Raise (ValueError msg)).
Proof.
  destruct (Animation.get_keyframes anim) as [kfs|e] eqn:Eg.
  - left. split; [|eauto]. intros item Hin. apply keyframe_of_item_ok.
    unfold Animation.get_keyframes in Eg.
    destruct (mapM _ _) as [items|] eqn:Em; [|discriminate].
    apply list_elem_of_In, list_elem_of_lookup in Hin as [i Hi].
    destruct (mapM_lookup _ _ _ Em) as [Hlen Hlook].
    assert (Hlt : (i < length items)%nat).
    { rewrite Hlen. now apply lookup_lt_Some in Hi. }
    apply lookup_lt_is_Some in Hlt as [kf Hkf].
    destruct (Hlook i kf Hkf) as (x & Hx & Hf). rewrite Hi in Hx.
    injection Hx as <-. eauto.
  - right. destruct (get_keyframes_raises _ _ Eg) as [msg ->]. split; [|eauto].
    intros Hall.
    destruct (mapM_ok_all Animation.keyframe_of_item (Animation.keyframes anim))
      as [items Hm].
    + intros item Hin. now apply keyframe_of_item_ok, Hall.
    + unfold Animation.get_keyframes in Eg. rewrite Hm in Eg. discriminate Eg.
Qed.

End KeyframeConstruction.

Lemma get_keyframes_sorted_complete_witness :
  exists kfs converted,
    Animation.get_keyframes grow_animation = Ok kfs
    /\ Permutation converted kfs
    /\ length converted = 2%nat.
Proof.
  destruct (Animation.get_keyframes grow_animation) as [kfs|] eqn:Eg;
    [|vm_compute in Eg; discriminate].
  destruct (get_keyframes_sorted_complete grow_animation kfs Eg)
    as (_ & converted & Hperm & Hall).
  exists kfs, converted. split; [reflexivity|]. split; [exact Hperm|].
  apply Forall2_length in Hall. now rewrite <- Hall.
Defined.

(** The constructor of the interpolator succeeds exactly when the
    keyframes have times in [0, 1] with one at 0 and one at 1; every other
    list, the empty one included, raises [ValueError]. *)
Theorem new_accepts_iff `{Python} (kfs : list Keyframe.t) (easing : string) :
  let accepted :=
    (exists kf, In kf kfs /\ Keyframe.time kf == 0)
    /\ (exists kf, In kf kfs /\ Keyframe.time kf == 1)
    /\ forall kf, In kf kfs -> 0 <= Keyframe.time kf /\ Keyframe.time kf <= 1 in
  (accepted /\ exists I, KeyframeInterpolator.new kfs easing = Ok I)
  \/ (~ accepted /\ exists msg, KeyframeInterpolator.new kfs easing = Raise (ValueError msg)).
Proof.
  intros accepted.
  pose proof (sorted_by_sorted Keyframe.time kfs) as Hs.
  destruct (KeyframeInterpolator.new kfs easing) as [I|e] eqn:En.
  - left. split; [|eauto].
    destruct (new_inv _ _ _ En) as (Hk & _ & first & rest & Hf & H0 & H1).
    rewrite Hk in Hf, H1. rewrite Hf in Hs.
    assert (Hin0 : In first kfs) by (apply (sorted_by_In Keyframe.time); rewrite Hf; now left).
    assert (Hin1 : In (List.last (sorted_by Keyframe.time kfs) first) kfs).
    { apply (sorted_by_In Keyframe.time). apply last_In. rewrite Hf. discriminate. }
    split; [now exists first|]. split; [eauto|].
    intros kf Hin. apply (sorted_by_In Keyframe.time) in Hin. rewrite Hf in Hin. split.
    + inversion Hs as [|? ? _ Hall]; subst. destruct Hin as [<-|Hin]; [lra|].
      rewrite List.Forall_forall in Hall. specialize (Hall kf Hin). simpl in Hall. lra.
    + pose proof (sorted_last_max Keyframe.time _ first kf Hs Hin) as Hle.
      rewrite Hf in H1. lra.
  - right. destruct (new_raises _ _ _ En) as [msg ->]. split; [|eauto].
    intros ((k0 & Hk0 & E0) & (k1 & Hk1 & E1) & Hall).
    unfold KeyframeInterpolator.new, KeyframeInterpolator._validate_keyframes in En.
    cbn [KeyframeInterpolator.keyframes] in En.
    apply (sorted_by_In Keyframe.time) in Hk0, Hk1.
    destruct (sorted_by Keyframe.time kfs) as [|first rest] eqn:Ef; [destruct Hk0|].
    assert (Hfirst : Keyframe.time first == 0).
    { assert (Hge : 0 <= Keyframe.time first).
      { apply Hall. apply (sorted_by_In Keyframe.time). rewrite Ef. now left. }
      inversion Hs as [|? ? _ Hfa]; subst. destruct Hk0 as [<-|Hin]; [exact E0|].
      rewrite List.Forall_forall in Hfa. specialize (Hfa k0 Hin). simpl in Hfa. lra. }
    assert (Hlast : Keyframe.time (List.last (first :: rest) first) == 1).
    { assert (Hle : Keyframe.time (List.last (first :: rest) first) <= 1).
      { apply Hall. apply (sorted_by_In Keyframe.time). rewrite Ef.
        apply last_In. discriminate. }
      pose proof (sorted_last_max Keyframe.time _ first k1 Hs Hk1). lra. }
    destruct (Qeqb_spec (Keyframe.time first) 0); [|contradiction].
    cbn [negb] in En.
    destruct (Qeqb_spec (Keyframe.time (List.last (first :: rest) first)) 1);
      [|contradiction].
    discriminate En.
Qed.

(** * Further properties of the timeline compiler *)

Lemma anim_progress_cases (anim : Animation.t) (current_time word_start : Q) :
  let elapsed := current_time - word_start - Animation.delay anim in
  let p := MotionTypographyEngine.anim_progress anim current_time word_start in
  (Animation.duration anim <= 0 /\ p = 1)
  \/ (0 < Animation.duration anim
      /\ ((elapsed <= 0 /\ p == 0)
          \/ (0 < elapsed /\ elapsed < Animation.duration anim /\ 0 <= p /\ p < 1)
          \/ (Animation.duration anim <= elapsed /\ p == 1))).
Proof.
  intros elapsed p. subst p. unfold MotionTypographyEngine.anim_progress.
  fold elapsed. destruct (Qltb_spec 0 (Animation.duration anim)) as [Hd|Hd].
  2: { left. split; [lra|reflexivity]. }
  right. split; [exact Hd|]. unfold MotionTypographyEngine.clamp01.
  set (d := Animation.duration anim) in *.
  destruct (Qlt_le_dec 0 elapsed) as [Hpos|Hneg].
  - assert (Hqpos : 0 < elapsed / d).
    { apply Qlt_shift_div_l; [exact Hd|lra]. }
    destruct (Qlt_le_dec elapsed d) as [Hlt|Hge].
    + right. left.
      assert (Hq1 : elapsed / d < 1) by (apply Qlt_shift_div_r; [exact Hd|lra]).
      destruct (Qmax_cases 0 (elapsed / d)) as [[? ->]|[? ->]]; [lra|].
      destruct (Qmin_cases 1 (elapsed / d)) as [[? ->]|[? ->]]; [lra|].
      split; [exact Hpos|]. split; [exact Hlt|]. split; lra.
    + right. right. split; [exact Hge|].
      assert (Hq1 : 1 <= elapsed / d) by (apply Qle_shift_div_l; [exact Hd|lra]).
      destruct (Qmax_cases 0 (elapsed / d)) as [[? ->]|[? ->]]; [lra|].
      destruct (Qmin_cases 1 (elapsed / d)) as [[? ->]|[? ->]]; lra.
  - left. split; [exact Hneg|].
    assert (Hq0 : elapsed / d <= 0).
    { apply Qle_shift_div_r; [exact Hd|lra]. }
    destruct (Qmax_cases 0 (elapsed / d)) as [[? ->]|[? ->]]; [|lra].
    destruct (Qmin_cases 1 0) as [[? ->]|[? ->]]; lra.
Qed.

(** The progress of an animation for a word (lines 136-137): 0 until the
    word's start plus the delay, in [0, 1) while the elapsed time is inside
    the animation's duration, and 1 from the end of the duration on; an
    animation whose duration is not positive is at 1 throughout. *)
Theorem anim_progress_timing (anim : Animation.t) (current_time word_start : Q) :
  let elapsed := current_time - word_start - Animation.delay anim in
  let p := MotionTypographyEngine.anim_progress anim current_time word_start in
  (Animation.duration anim <= 0 /\ p = 1)
  \/ (0 < Animation.duration anim
      /\ ((elapsed <= 0 /\ p == 0)
          \/ (0 < elapsed /\ elapsed < Animation.duration anim /\ 0 <= p /\ p < 1)
          \/ (Animation.duration anim <= elapsed /\ p == 1))).
Proof. exact (anim_progress_cases anim current_time word_start). Qed.





Section Compiler.
Context `{Python}.

(** [compile] overwrites the engine's resolution and frame rate before it
    reads them: the result does not depend on the state the engine was in. *)
Theorem compile_ignores_engine_state (eng1 eng2 : MotionTypographyEngine.t)
    (tr : Transcript.t) (st : StyleConfig.t) :
  MotionTypographyEngine.compile eng1 tr st = MotionTypographyEngine.compile eng2 tr st.
Proof.
  destruct (Validator.validate_transcript tr) as [tr'|e] eqn:Ev.
  - destruct (StyleValidator.validate_styles st) as [[]|e] eqn:Es.
    + destruct (compile_unfold eng1 tr tr' st Ev Es) as [_ ->].
      destruct (compile_unfold eng2 tr tr' st Ev Es) as [_ ->]. reflexivity.
    + unfold MotionTypographyEngine.compile. now rewrite Ev, Es.
  - unfold MotionTypographyEngine.compile. now rewrite Ev.
Qed.




End Compiler.





